(** * The chemical-formula formatter of the clipboard widget

    A shallow embedding of [clipboard_util.ts] (the enumerating
    [getAllFormulas] and its earlier single-result sibling [formatFormula])
    and of the history update of [main.ts], with the properties the
    specification states about them. *)

From Equations Require Import Equations.
From Equations.Prop Require Import Logic.
From Stdlib Require Import String Ascii List ZArith Bool Arith Lia.
Import ListNotations.

Local Open Scope Z_scope.

(** ** JavaScript strings

    A JavaScript string is a sequence of UTF-16 code units.  Indexing
    ([s[i]], [charAt], [split('')]) works on code units, so a string is a
    list of them and [+] on strings is [++]. *)

Definition jsstring := list Z.

(** An ASCII literal as a JavaScript string (used for literals of the
    source that are plain ASCII; other glyphs are written by code unit). *)
Fixpoint str (s : string) : jsstring :=
  match s with
  | EmptyString => []
  | String a r => Z.of_N (N_of_ascii a) :: str r
  end.

Fixpoint jsstring_eqb (a b : jsstring) : bool :=
  match a, b with
  | [], [] => true
  | x :: a', y :: b' => (x =? y) && jsstring_eqb a' b'
  | _, _ => false
  end.

(** [c.match(/[0-9]/)] and [c.match(/[a-zA-Z]/)] on the one-unit string
    made of code unit [c]. *)
Definition isDigit (c : Z) : bool := (48 <=? c) && (c <=? 57).

Definition isUpperAZ (c : Z) : bool := (65 <=? c) && (c <=? 90).
Definition isLowerAZ (c : Z) : bool := (97 <=? c) && (c <=? 122).
Definition isAlpha (c : Z) : bool := isLowerAZ c || isUpperAZ c.

(** [String.prototype.toUpperCase] and [toLowerCase], for strings of code
    units up to U+00FF (Basic Latin and Latin-1 Supplement).  The mapping is
    Unicode's: besides a-z, U+00E0..U+00FE lose 0x20 (U+00F7, the division
    sign, is no letter), the micro sign becomes Greek capital mu, y with
    diaeresis becomes U+0178 and sharp s becomes the two units "SS".  Code
    units above U+00FF are outside what is modelled and are kept. *)
Definition upperUnit (c : Z) : jsstring :=
  if isLowerAZ c then [c - 32]
  else if c =? 0xB5 then [0x39C]
  else if c =? 0xDF then [83; 83]
  else if c =? 0xFF then [0x178]
  else if (0xE0 <=? c) && (c <=? 0xFE) && negb (c =? 0xF7) then [c - 32]
  else [c].

Definition lowerUnit (c : Z) : jsstring :=
  if isUpperAZ c then [c + 32]
  else if (0xC0 <=? c) && (c <=? 0xDE) && negb (c =? 0xD7) then [c + 32]
  else [c].

Definition toUpperCase (s : jsstring) : jsstring := flat_map upperUnit s.
Definition toLowerCase (s : jsstring) : jsstring := flat_map lowerUnit s.

(** [s.charAt(k)]: the one-unit string at [k], the empty string out of range. *)
Definition charAt (s : jsstring) (k : nat) : jsstring :=
  match nth_error s k with
  | Some c => [c]
  | None => []
  end.

(** [s.substring(a, b)] for [a <= b]. *)
Definition substring (s : jsstring) (a b : nat) : jsstring :=
  firstn (b - a) (skipn a s).

(** ** The tables *)

(** [ELEMENTS], in the order of the source. *)
Definition ELEMENTS : list jsstring := map str
  [ "Ac"; "Ag"; "Al"; "Am"; "Ar"; "As"; "At"; "Au"; "B"; "Ba"; "Be"; "Bh"; "Bi";
    "Bk"; "Br"; "C"; "Ca"; "Cd"; "Ce"; "Cf"; "Cl"; "Cm"; "Cn"; "Co"; "Cr"; "Cs";
    "Cu"; "Db"; "Ds"; "Dy"; "Er"; "Es"; "Eu"; "F"; "Fe"; "Fl"; "Fm"; "Fr"; "Ga";
    "Gd"; "Ge"; "H"; "He"; "Hf"; "Hg"; "Ho"; "Hs"; "I"; "In"; "Ir"; "K"; "Kr";
    "La"; "Li"; "Lr"; "Lu"; "Lv"; "Md"; "Mg"; "Mn"; "Mo"; "Mt"; "N"; "Na"; "Nb";
    "Nd"; "Ne"; "Ni"; "No"; "Np"; "O"; "Os"; "P"; "Pa"; "Pb"; "Pd"; "Pm"; "Po";
    "Pr"; "Pt"; "Pu"; "Ra"; "Rb"; "Re"; "Rf"; "Rg"; "Rh"; "Rn"; "Ru"; "S"; "Sb";
    "Sc"; "Se"; "Sg"; "Si"; "Sm"; "Sn"; "Sr"; "Ta"; "Tb"; "Tc"; "Te"; "Th"; "Ti";
    "Tl"; "Tm"; "U"; "V"; "W"; "Xe"; "Y"; "Yb"; "Zn"; "Zr" ]%string.

(** [set.has(x)]. *)
Definition has (set : list jsstring) (x : jsstring) : bool :=
  existsb (jsstring_eqb x) set.

(** [SUBSCRIPT_MAP]: keys are the one-unit digit strings, values the
    subscript glyphs U+2080..U+2089. *)
Definition SUBSCRIPT_MAP : list (jsstring * jsstring) :=
  [ (str "0", [0x2080]); (str "1", [0x2081]); (str "2", [0x2082]);
    (str "3", [0x2083]); (str "4", [0x2084]); (str "5", [0x2085]);
    (str "6", [0x2086]); (str "7", [0x2087]); (str "8", [0x2088]);
    (str "9", [0x2089]) ].

(** [obj[key]]: [None] stands for [undefined]. *)
Fixpoint lookup (obj : list (jsstring * jsstring)) (key : jsstring)
  : option jsstring :=
  match obj with
  | [] => None
  | (k, v) :: rest => if jsstring_eqb k key then Some v else lookup rest key
  end.

(** [v || d] on strings: [undefined] and the empty string are falsy. *)
Definition orElse (v : option jsstring) (d : jsstring) : jsstring :=
  match v with
  | Some [] => d
  | Some (u :: g) => u :: g
  | None => d
  end.

(** [s.split('')] and [parts.join('')]. *)
Definition split (s : jsstring) : list jsstring := map (fun c => [c]) s.
Definition join (parts : list jsstring) : jsstring := concat parts.

(** ** [toSubscript] *)

Definition toSubscript (numStr : jsstring) : jsstring :=
  join (map (fun c => orElse (lookup SUBSCRIPT_MAP c) c) (split numStr)).

(** ** The digit loop

    [while (digitIndex < formula.length && formula[digitIndex].match(/[0-9]/))
       { num += formula[digitIndex]; digitIndex += 1; }]
    with loop state [(digitIndex, num)]; the result is the state at exit. *)

Equations? collectDigits (formula : jsstring) (digitIndex : nat) (num : jsstring)
  : nat * jsstring by wf (length formula - digitIndex)%nat lt :=
  collectDigits formula digitIndex num with inspect (nth_error formula digitIndex) := {
    | exist _ None _ => (digitIndex, num);
    | exist _ (Some c) Hc with isDigit c => {
        | true => collectDigits formula (digitIndex + 1) (num ++ [c]);
        | false => (digitIndex, num) } }.
Proof.
  assert (digitIndex < length formula)%nat
    by (apply nth_error_Some; congruence).
  lia.
Qed.

(** [num ? toSubscript(num) : ''] *)
Definition subscriptOf (num : jsstring) : jsstring :=
  match num with
  | [] => []
  | _ :: _ => toSubscript num
  end.

Lemma collectDigits_index_ge formula digitIndex num :
  (digitIndex <= fst (collectDigits formula digitIndex num))%nat.
Proof.
  funelim (collectDigits formula digitIndex num); simpl; lia.
Qed.

(** ** [getAllFormulas]

    [nth_error formula index] is [None] exactly when
    [index >= formula.length], and [Some c] gives the unit [formula[index]].
    [results] is the array the source pushes to: the candidates of the
    two-letter branch (when it applies), then those of the one-letter
    branch; for a non-alphabetic character, the literal in front of every
    candidate of the rest.  Each [for (const rest of restResults) push] is a
    [map] over [restResults].  [index] is a natural number, as it is at
    the default 0 and at every recursive call. *)

Equations? getAllFormulas (formula : jsstring) (index : nat)
  : list jsstring by wf (length formula - index)%nat lt :=
  getAllFormulas formula index with inspect (nth_error formula index) := {
    | exist _ None _ => [ [] ];
    | exist _ (Some c) Hc with isAlpha c => {
        | true =>
            (match nth_error formula (index + 1) with
             | Some c1 =>
                 if isAlpha c1 then
                   let twoLetter := substring formula index (index + 2) in
                   let capitalized :=
                     toUpperCase (charAt twoLetter 0)
                       ++ toLowerCase (charAt twoLetter 1) in
                   if has ELEMENTS capitalized then
                     let digitIndex := fst (collectDigits formula (index + 2) []) in
                     let num := snd (collectDigits formula (index + 2) []) in
                     let subscript := subscriptOf num in
                     let restResults := getAllFormulas formula digitIndex in
                     map (fun rest => capitalized ++ subscript ++ rest) restResults
                   else []
                 else []
             | None => []
             end)
            ++
            (let oneLetter := toUpperCase [c] in
             let digitIndex := fst (collectDigits formula (index + 1) []) in
             let num := snd (collectDigits formula (index + 1) []) in
             let subscript := subscriptOf num in
             let restResults := getAllFormulas formula digitIndex in
             map (fun rest => oneLetter ++ subscript ++ rest) restResults);
        | false =>
            let restResults := getAllFormulas formula (index + 1) in
            map (fun rest => [c] ++ rest) restResults } }.
Proof.
  all: assert (index < length formula)%nat
    by (apply nth_error_Some; congruence).
  - pose proof (collectDigits_index_ge formula (index + 2) []).
    subst digitIndex. lia.
  - pose proof (collectDigits_index_ge formula (index + 1) []).
    subst digitIndex. lia.
  - lia.
Qed.

(** [enumerate]: [getAllFormulas] with the default starting index. *)
Definition enumerate (input : jsstring) : list jsstring :=
  getAllFormulas input 0.

(** The exported function called with an integer [index] of the caller's
    choosing.  From 0 on it is the function above.  For a negative [index]
    the test [index >= formula.length] is false, [formula[index]] is
    [undefined] and [undefined.match(...)] raises a TypeError. *)
Variant outcome :=
| returned (candidates : list jsstring)
| typeError.

Definition getAllFormulasAt (formula : jsstring) (index : Z) : outcome :=
  if index <? 0 then typeError
  else returned (getAllFormulas formula (Z.to_nat index)).

(** What the two-letter branch pushes at [index] (nothing unless the next
    unit is a letter and the capitalized pair is an element), and what the
    one-letter branch pushes at a letter [c]. *)
Definition twoLetterCandidates (formula : jsstring) (index : nat)
  : list jsstring :=
  match nth_error formula (index + 1) with
  | Some c1 =>
      if isAlpha c1 then
        let twoLetter := substring formula index (index + 2) in
        let capitalized :=
          toUpperCase (charAt twoLetter 0) ++ toLowerCase (charAt twoLetter 1) in
        if has ELEMENTS capitalized then
          let digitIndex := fst (collectDigits formula (index + 2) []) in
          let num := snd (collectDigits formula (index + 2) []) in
          map (fun rest => capitalized ++ subscriptOf num ++ rest)
              (getAllFormulas formula digitIndex)
        else []
      else []
  | None => []
  end.

Definition oneLetterCandidates (formula : jsstring) (index : nat) (c : Z)
  : list jsstring :=
  let digitIndex := fst (collectDigits formula (index + 1) []) in
  let num := snd (collectDigits formula (index + 1) []) in
  map (fun rest => toUpperCase [c] ++ subscriptOf num ++ rest)
      (getAllFormulas formula digitIndex).

(** ** [formatFormula], the single-result formatter

    The choice of the element at a letter [c = formula[i]]: the element
    pushed and the position after it ([elem] and the updated [i] of the
    source's nested conditional). *)

Definition matchElement (formula : jsstring) (i : nat) (c : Z)
  : jsstring * nat :=
  match nth_error formula (i + 1) with
  | Some c1 =>
      if isAlpha c1 then
        let twoLetter := substring formula i (i + 2) in
        let capitalized :=
          toUpperCase (charAt twoLetter 0) ++ toLowerCase (charAt twoLetter 1) in
        if has ELEMENTS capitalized then (capitalized, (i + 2)%nat)
        else (toUpperCase [c], (i + 1)%nat)
      else (toUpperCase [c], (i + 1)%nat)
  | None => (toUpperCase [c], (i + 1)%nat)
  end.

Lemma matchElement_index_gt formula i c :
  (i < snd (matchElement formula i c))%nat.
Proof.
  unfold matchElement.
  destruct (nth_error formula (i + 1)) as [c1|]; [|simpl; lia].
  destruct (isAlpha c1); [|simpl; lia].
  cbv zeta.
  match goal with |- context [has ELEMENTS ?x] => destruct (has ELEMENTS x) end;
    simpl; lia.
Qed.

(** [if (num) result.push(toSubscript(num))] *)
Definition pushSubscript (result : list jsstring) (num : jsstring)
  : list jsstring :=
  match num with
  | [] => result
  | _ :: _ => result ++ [toSubscript num]
  end.

(** The outer [while (i < formula.length)] loop, with loop state
    [(i, result)]; it returns the [result] array at exit. *)
Equations? formatLoop (formula : jsstring) (i : nat) (result : list jsstring)
  : list jsstring by wf (length formula - i)%nat lt :=
  formatLoop formula i result with inspect (nth_error formula i) := {
    | exist _ None _ => result;
    | exist _ (Some c) Hc with isAlpha c => {
        | true =>
            let elem := fst (matchElement formula i c) in
            let i1 := snd (matchElement formula i c) in
            let result1 := result ++ [elem] in
            let i2 := fst (collectDigits formula i1 []) in
            let num := snd (collectDigits formula i1 []) in
            formatLoop formula i2 (pushSubscript result1 num);
        | false => formatLoop formula (i + 1) (result ++ [ [c] ]) } }.
Proof.
  all: assert (i < length formula)%nat
    by (apply nth_error_Some; congruence).
  - pose proof (matchElement_index_gt formula i c).
    pose proof (collectDigits_index_ge formula (snd (matchElement formula i c)) []).
    subst i2 i1. lia.
  - lia.
Qed.

Definition formatFormula (formula : jsstring) : jsstring :=
  join (formatLoop formula 0 []).

(** [transformToUppercase], exported by every version of the module. *)
Definition transformToUppercase (text : jsstring) : jsstring :=
  toUpperCase text.

(** ** The copy history of [main.ts]

    [history] is the module-level array; [copyFormula] is its only writer.
    The clipboard write is the one effect that can fail: its outcome is an
    input of the model.  What runs after the [await] runs to completion
    without another suspension, so one call is one transition. *)

Record HistoryEntry := { original : jsstring; formatted : jsstring }.

Inductive FeedbackType := success | error.

Record Page := {
  history : list HistoryEntry;
  feedback : option (jsstring * FeedbackType)
}.

(** The outcome of [await navigator.clipboard.writeText(formula)]. *)
Inductive WriteOutcome := Resolved | Rejected.

(** [history.unshift(e)] and [history.pop()]. *)
Definition unshift (e : HistoryEntry) (h : list HistoryEntry) := e :: h.
Definition pop (h : list HistoryEntry) := removelast h.

Definition copiedMessage (formula : jsstring) : jsstring :=
  [0x2713] ++ str " Copied: " ++ formula.
Definition failedMessage : jsstring := str "Failed to copy. Please try again.".

(** [showFeedback(message, type)] sets the text and class of the feedback
    element (its timer only hides the element again later). *)
Definition showFeedback (message : jsstring) (type : FeedbackType)
  (p : Page) : Page :=
  {| history := history p; feedback := Some (message, type) |}.

(** [copyFormula]: the [try] block after a resolved write, the [catch]
    block after a rejected one. *)
Definition copyFormula (w : WriteOutcome) (original formula : jsstring)
  (p : Page) : Page :=
  match w with
  | Resolved =>
      let p := showFeedback (copiedMessage formula) success p in
      let h := unshift {| original := original; formatted := formula |}
                       (history p) in
      let h := if (5 <? length h)%nat then pop h else h in
      {| history := h; feedback := feedback p |}
  | Rejected => showFeedback failedMessage error p
  end.

(** The page at load ([let history = []], no feedback shown). *)
Definition initialPage : Page := {| history := []; feedback := None |}.

(** The pages the widget can be in: the initial one, and any page after
    one more feedback message or one more call of [copyFormula]. *)
Inductive reachable : Page -> Prop :=
| reachable_init : reachable initialPage
| reachable_feedback message type p :
    reachable p -> reachable (showFeedback message type p)
| reachable_copy w original formula p :
    reachable p -> reachable (copyFormula w original formula p).

(** ** The page of [main.ts]: input field, modal and handlers

    [String.prototype.trim] removes the white space and line terminators of
    ECMAScript from both ends; [parseInt] skips them at the start. *)
Definition isWhiteSpace (c : Z) : bool :=
  (c =? 0x09) || (c =? 0x0A) || (c =? 0x0B) || (c =? 0x0C) || (c =? 0x0D)
  || (c =? 0x20) || (c =? 0xA0) || (c =? 0x1680)
  || ((0x2000 <=? c) && (c <=? 0x200A))
  || (c =? 0x2028) || (c =? 0x2029) || (c =? 0x202F) || (c =? 0x205F)
  || (c =? 0x3000) || (c =? 0xFEFF).

Fixpoint trimStart (s : jsstring) : jsstring :=
  match s with
  | c :: rest => if isWhiteSpace c then trimStart rest else s
  | [] => []
  end.

Definition trimEnd (s : jsstring) : jsstring := rev (trimStart (rev s)).

Definition trim (s : jsstring) : jsstring := trimEnd (trimStart s).

(** [parseInt(string)] without a radix.  [None] is [NaN]; [Some z] is the
    integer read, sign applied, before it is rounded to a Number.  The
    handler below only compares it with 1, with 9 and with a length, and
    rounding does not change those comparisons. *)
Definition digitValue (c : Z) : option Z :=
  if isDigit c then Some (c - 48)
  else if isLowerAZ c then Some (c - 97 + 10)
  else if isUpperAZ c then Some (c - 65 + 10)
  else None.

(** The values of the leading radix-[R] digits. *)
Fixpoint radixDigits (R : Z) (s : jsstring) : list Z :=
  match s with
  | c :: rest =>
      match digitValue c with
      | Some v => if v <? R then v :: radixDigits R rest else []
      | None => []
      end
  | [] => []
  end.

Definition mathInt (R : Z) (digits : list Z) : Z :=
  fold_left (fun acc v => acc * R + v) digits 0.

Definition parseInt (string : jsstring) : option Z :=
  let trimmed := trimStart string in
  let sign := match trimmed with 45 :: _ => -1 | _ => 1 end in
  let unsigned := match trimmed with
                  | 43 :: rest => rest
                  | 45 :: rest => rest
                  | _ => trimmed
                  end in
  let stripped :=
    match unsigned with
    | 48 :: x :: rest =>
        if (x =? 120) || (x =? 88) then (16, rest) else (10, unsigned)
    | _ => (10, unsigned)
    end in
  match radixDigits (fst stripped) (snd stripped) with
  | [] => None
  | d :: digits => Some (sign * mathInt (fst stripped) (d :: digits))
  end.

(** What the handlers read and write: the history and feedback of [Page],
    [textInput.value], whether [disambiguationModal] has the class [show],
    the option elements of [disambiguationOptions], each as the number it
    is given and the formula it is rendered from, and the two module-level
    [pending] variables.  The markup, [escapeHtml] and the HTML parser,
    which turn the formula into the text on screen, are not modelled. *)
Record App := {
  page : Page;
  textInput : jsstring;
  modalShown : bool;
  modalOptions : list (nat * jsstring);
  pendingFormulas : list jsstring;
  pendingOriginal : jsstring
}.

Definition withPage (p : Page) (a : App) : App :=
  {| page := p; textInput := textInput a; modalShown := modalShown a;
     modalOptions := modalOptions a; pendingFormulas := pendingFormulas a;
     pendingOriginal := pendingOriginal a |}.

Definition withInput (value : jsstring) (a : App) : App :=
  {| page := page a; textInput := value; modalShown := modalShown a;
     modalOptions := modalOptions a; pendingFormulas := pendingFormulas a;
     pendingOriginal := pendingOriginal a |}.

Definition withPending (formulas : list jsstring) (original : jsstring)
  (a : App) : App :=
  {| page := page a; textInput := textInput a; modalShown := modalShown a;
     modalOptions := modalOptions a; pendingFormulas := formulas;
     pendingOriginal := original |}.

(** [showDisambiguationModal(formulas)]: one option per formula, numbered
    [index + 1] and rendered from that formula, then the class [show]. *)
Definition showDisambiguationModal (formulas : list jsstring) (a : App) : App :=
  {| page := page a; textInput := textInput a; modalShown := true;
     modalOptions := combine (seq 1 (length formulas)) formulas;
     pendingFormulas := pendingFormulas a;
     pendingOriginal := pendingOriginal a |}.

Definition hideDisambiguationModal (a : App) : App :=
  {| page := page a; textInput := textInput a; modalShown := false;
     modalOptions := modalOptions a; pendingFormulas := pendingFormulas a;
     pendingOriginal := pendingOriginal a |}.

(** A handler runs up to its [await] of the clipboard write and is resumed
    when the write settles; other handlers may run in between.  What is
    left to do then is one of three things, each with the text that was
    handed to [writeText]. *)
Inductive Continuation :=
| AfterEnter (original formula : jsstring)
| AfterSelection (original formula : jsstring)
| AfterHistoryCopy (formatted : jsstring).

Definition written (k : Continuation) : jsstring :=
  match k with
  | AfterEnter _ formula => formula
  | AfterSelection _ formula => formula
  | AfterHistoryCopy formatted => formatted
  end.

(** The [keypress] listener of [textInput], up to the write. *)
Definition textInputKeypress (key : jsstring) (a : App)
  : App * option Continuation :=
  if jsstring_eqb key (str "Enter") then
    let originalText := trim (textInput a) in
    match originalText with
    | [] =>
        (withPage (showFeedback (str "Please enter some text") error (page a)) a,
         None)
    | _ :: _ =>
        let formulas := getAllFormulas originalText 0 in
        let a := withPending formulas originalText a in
        if (length formulas =? 1)%nat then
          (a, Some (AfterEnter originalText (nth 0 formulas [])))
        else if (1 <? length formulas)%nat then
          (showDisambiguationModal formulas a, None)
        else (a, None)
    end
  else (a, None).

(** The [keypress] listener of [document], up to the write.  Under its
    guard [num - 1] is an index of [pendingFormulas]. *)
Definition documentKeypress (key : jsstring) (a : App)
  : App * option Continuation :=
  if negb (modalShown a) then (a, None)
  else
    match parseInt key with
    | Some num =>
        if (1 <=? num) && (num <=? 9)
           && (num <=? Z.of_nat (length (pendingFormulas a)))
        then
          let selectedFormula :=
            nth (Z.to_nat (num - 1)) (pendingFormulas a) [] in
          (a, Some (AfterSelection (pendingOriginal a) selectedFormula))
        else (a, None)
    | None => (a, None)
    end.

(** The [keydown] listener of [document]. *)
Definition documentKeydown (key : jsstring) (a : App) : App :=
  if jsstring_eqb key (str "Escape") && modalShown a
  then withInput [] (hideDisambiguationModal a)
  else a.

(** The [click] listener of the copy button rendered for the entry at
    [index]; [renderHistory] renders the buttons anew after every change of
    [history], so there is a button exactly for each entry. *)
Definition copyButtonClick (index : nat) (a : App)
  : App * option Continuation :=
  match nth_error (history (page a)) index with
  | Some entry => (a, Some (AfterHistoryCopy (formatted entry)))
  | None => (a, None)
  end.

(** The rest of a handler, once its write has settled. *)
Definition resume (w : WriteOutcome) (k : Continuation) (a : App) : App :=
  match k with
  | AfterEnter original formula =>
      withInput [] (withPage (copyFormula w original formula (page a)) a)
  | AfterSelection original formula =>
      withInput []
        (hideDisambiguationModal
           (withPage (copyFormula w original formula (page a)) a))
  | AfterHistoryCopy formatted =>
      match w with
      | Resolved =>
          withPage (showFeedback (copiedMessage formatted) success (page a)) a
      | Rejected => withPage (showFeedback failedMessage error (page a)) a
      end
  end.

(** The page together with the writes that have not settled yet. *)
Record System := {
  current : App;
  inflight : list Continuation
}.

Inductive Event :=
| UserEdits (value : jsstring)
| InputKeypress (key : jsstring)
| DocumentKeypress (key : jsstring)
| DocumentKeydown (key : jsstring)
| CopyButtonClick (index : nat)
| WriteSettles (n : nat) (w : WriteOutcome).

Definition launch (r : App * option Continuation) (s : System) : System :=
  {| current := fst r;
     inflight := match snd r with
                 | Some k => inflight s ++ [k]
                 | None => inflight s
                 end |}.

Fixpoint removeNth {A} (n : nat) (l : list A) : list A :=
  match l, n with
  | [], _ => []
  | _ :: rest, O => rest
  | x :: rest, S n => x :: removeNth n rest
  end.

(** One event: the user edits the field, a listener runs up to its write,
    or the [n]-th pending write settles and its handler is resumed. *)
Definition react (e : Event) (s : System) : System :=
  match e with
  | UserEdits value =>
      {| current := withInput value (current s); inflight := inflight s |}
  | InputKeypress key => launch (textInputKeypress key (current s)) s
  | DocumentKeypress key => launch (documentKeypress key (current s)) s
  | DocumentKeydown key =>
      {| current := documentKeydown key (current s); inflight := inflight s |}
  | CopyButtonClick index => launch (copyButtonClick index (current s)) s
  | WriteSettles n w =>
      match nth_error (inflight s) n with
      | Some k =>
          {| current := resume w k (current s); inflight := removeNth n (inflight s) |}
      | None => s
      end
  end.

Definition initialApp : App :=
  {| page := initialPage; textInput := []; modalShown := false;
     modalOptions := []; pendingFormulas := []; pendingOriginal := [] |}.

Definition initialSystem : System := {| current := initialApp; inflight := [] |}.

Definition run (events : list Event) : System :=
  fold_left (fun s e => react e s) events initialSystem.

(** The key of a digit key. *)
Definition digitKey (k : nat) : jsstring := [48 + Z.of_nat k].


(** ** Vocabulary of the properties *)

(** The three ways a position can be. *)
Variant position (formula : jsstring) (index : nat) : Prop :=
| at_end : nth_error formula index = None -> position formula index
| at_letter c :
    nth_error formula index = Some c -> isAlpha c = true ->
    position formula index
| at_literal c :
    nth_error formula index = Some c -> isAlpha c = false ->
    position formula index.

(** The glyph table as arithmetic on code units: digit [d] goes to
    U+2080 + [d], anything else stays. *)
Definition subscriptUnit (c : Z) : Z :=
  if isDigit c then c - 48 + 0x2080 else c.

(** [toUpperCase] and [toLowerCase] on the units the regular expression
    [/[a-zA-Z]/] accepts. *)
Definition asciiUpper (c : Z) : Z := if isLowerAZ c then c - 32 else c.
Definition asciiLower (c : Z) : Z := if isUpperAZ c then c + 32 else c.

(** The units of ASCII. *)
Definition isAscii (c : Z) : bool := (0 <=? c) && (c <? 128).

(** The digits a string starts with, and the string behind them: what the
    digit loop collects from a position and where it leaves off. *)
Fixpoint digitRun (s : jsstring) : jsstring :=
  match s with
  | c :: rest => if isDigit c then c :: digitRun rest else []
  | [] => []
  end.

Definition afterDigits (s : jsstring) : jsstring :=
  skipn (length (digitRun s)) s.

(** Two units that the two-letter branch accepts as an element. *)
Definition element (c c1 : Z) : bool :=
  isAlpha c && isAlpha c1 && has ELEMENTS (toUpperCase [c] ++ toLowerCase [c1]).

(** A string that starts with such a pair: both branches apply at its
    head. *)
Definition ambiguousHead (s : jsstring) : bool :=
  match s with
  | c :: c1 :: _ => element c c1
  | _ => false
  end.

(** The number of positions of a string where both branches apply. *)
Fixpoint ambiguities (s : jsstring) : nat :=
  match s with
  | [] => 0
  | c :: rest => (if ambiguousHead (c :: rest) then 1 else 0) + ambiguities rest
  end.

(** A unit of a candidate against the unit of the input at its position:
    the same unit, or its uppercase or lowercase letter, or its subscript
    glyph. *)
Definition renders (c x : Z) : Prop :=
  x = c \/ x = asciiUpper c \/ x = asciiLower c \/ x = subscriptUnit c.


(** [s.repeat(n)]. *)
Definition repeatString (s : jsstring) (n : nat) : jsstring :=
  concat (repeat s n).


(** A history entry as it should be: the query is what [trim] leaves of a
    field that was not blank, and the formula is one of its candidates. *)
Definition entryOk (original formula : jsstring) : Prop :=
  In formula (enumerate original)
  /\ original <> []
  /\ trim original = original.

Definition continuationOk (k : Continuation) : Prop :=
  match k with
  | AfterEnter original formula => entryOk original formula
  | AfterSelection original formula => entryOk original formula
  | AfterHistoryCopy _ => True
  end.

(** What every event keeps. *)
Record invariant (s : System) : Prop := {
  history_bounded : (length (history (page (current s))) <= 5)%nat;
  history_ok :
    Forall (fun e => entryOk (original e) (formatted e))
           (history (page (current s)));
  pending_ok :
    Forall (entryOk (pendingOriginal (current s)))
           (pendingFormulas (current s));
  inflight_ok : Forall continuationOk (inflight s)
}.


(** Whether somewhere in a string an ASCII digit stands right behind a
    letter. *)
Fixpoint digitAfterLetter (s : jsstring) : bool :=
  match s with
  | c :: rest =>
      match rest with
      | d :: _ => (isAlpha c && isDigit d) || digitAfterLetter rest
      | [] => false
      end
  | [] => false
  end.


(** * Properties *)

(** After [funelim], the equations of the case at hand decide the
    matches of the body. *)
Ltac by_case_equations :=
  repeat match goal with
         | H : nth_error ?l ?i = _ |- context [nth_error ?l ?i] => rewrite H
         | H : ?p ?c = true |- context [if ?p ?c then _ else _] => rewrite H
         | H : ?p ?c = false |- context [if ?p ?c then _ else _] => rewrite H
         end;
  reflexivity.

(** The body of [getAllFormulas] as one equation. *)
Lemma getAllFormulas_body formula index :
  getAllFormulas formula index =
  match nth_error formula index with
  | None => [ [] ]
  | Some c =>
      if isAlpha c then
        (match nth_error formula (index + 1) with
         | Some c1 =>
             if isAlpha c1 then
               let twoLetter := substring formula index (index + 2) in
               let capitalized :=
                 toUpperCase (charAt twoLetter 0)
                   ++ toLowerCase (charAt twoLetter 1) in
               if has ELEMENTS capitalized then
                 let digitIndex := fst (collectDigits formula (index + 2) []) in
                 let num := snd (collectDigits formula (index + 2) []) in
                 map (fun rest => capitalized ++ subscriptOf num ++ rest)
                     (getAllFormulas formula digitIndex)
               else []
             else []
         | None => []
         end)
        ++
        (let digitIndex := fst (collectDigits formula (index + 1) []) in
         let num := snd (collectDigits formula (index + 1) []) in
         map (fun rest => toUpperCase [c] ++ subscriptOf num ++ rest)
             (getAllFormulas formula digitIndex))
      else
        map (fun rest => [c] ++ rest) (getAllFormulas formula (index + 1))
  end.
Proof.
  funelim (getAllFormulas formula index); by_case_equations.
Qed.

Lemma collectDigits_body formula digitIndex num :
  collectDigits formula digitIndex num =
  match nth_error formula digitIndex with
  | None => (digitIndex, num)
  | Some c =>
      if isDigit c then collectDigits formula (digitIndex + 1) (num ++ [c])
      else (digitIndex, num)
  end.
Proof.
  funelim (collectDigits formula digitIndex num); by_case_equations.
Qed.

Lemma formatLoop_body formula i result :
  formatLoop formula i result =
  match nth_error formula i with
  | None => result
  | Some c =>
      if isAlpha c then
        let elem := fst (matchElement formula i c) in
        let i1 := snd (matchElement formula i c) in
        let i2 := fst (collectDigits formula i1 []) in
        let num := snd (collectDigits formula i1 []) in
        formatLoop formula i2 (pushSubscript (result ++ [elem]) num)
      else formatLoop formula (i + 1) (result ++ [ [c] ])
  end.
Proof.
  funelim (formatLoop formula i result); by_case_equations.
Qed.

(** ** Strings and indices *)

Lemma skipn_nth_error (s : jsstring) i c :
  nth_error s i = Some c -> skipn i s = c :: skipn (S i) s.
Proof.
  revert s. induction i as [|i IH]; intros [|x s] H; simpl in H; try discriminate.
  - injection H as ->. reflexivity.
  - simpl. rewrite (IH s H). reflexivity.
Qed.

Lemma substring_two (s : jsstring) i c c1 :
  nth_error s i = Some c -> nth_error s (i + 1) = Some c1 ->
  substring s i (i + 2) = [c; c1].
Proof.
  intros H H1. unfold substring.
  replace (i + 2 - i)%nat with 2%nat by lia.
  rewrite Nat.add_1_r in H1.
  rewrite (skipn_nth_error _ _ _ H), (skipn_nth_error _ _ _ H1).
  reflexivity.
Qed.

(** [capitalized] in terms of the two code units it is built from. *)
Lemma capitalized_units (s : jsstring) i c c1 :
  nth_error s i = Some c -> nth_error s (i + 1) = Some c1 ->
  toUpperCase (charAt (substring s i (i + 2)) 0)
    ++ toLowerCase (charAt (substring s i (i + 2)) 1)
  = toUpperCase [c] ++ toLowerCase [c1].
Proof.
  intros H H1. rewrite (substring_two _ _ _ _ H H1). reflexivity.
Qed.

Lemma isDigit_not_alpha c : isDigit c = true -> isAlpha c = false.
Proof.
  unfold isDigit, isAlpha, isLowerAZ, isUpperAZ. lia.
Qed.

Lemma isAlpha_not_digit c : isAlpha c = true -> isDigit c = false.
Proof.
  unfold isDigit, isAlpha, isLowerAZ, isUpperAZ. lia.
Qed.

(** No digit at [digitIndex]: the loop exits at once. *)
Lemma collectDigits_none formula digitIndex num :
  match nth_error formula digitIndex with
  | Some c => isDigit c = false
  | None => True
  end ->
  collectDigits formula digitIndex num = (digitIndex, num).
Proof.
  intros H. rewrite collectDigits_body.
  destruct (nth_error formula digitIndex) as [c|]; [rewrite H|]; reflexivity.
Qed.

(** ** Induction along the recursion

    Every recursive call of [getAllFormulas] is at an index closer to the
    end of the formula. *)

Lemma index_induction (formula : jsstring) (P : nat -> Prop) :
  (forall i,
      (forall j, (length formula - j < length formula - i)%nat -> P j) -> P i) ->
  forall i, P i.
Proof.
  intros step i.
  remember (length formula - i)%nat as m eqn:Hm.
  revert i Hm. induction m as [m IH] using lt_wf_ind. intros i ->.
  apply step. intros j Hj. exact (IH _ Hj j eq_refl).
Qed.

Lemma closer_after_digits formula i k :
  (i < length formula)%nat -> (0 < k)%nat ->
  (length formula - fst (collectDigits formula (i + k) [])
   < length formula - i)%nat.
Proof.
  intros Hi Hk. pose proof (collectDigits_index_ge formula (i + k) []). lia.
Qed.

Lemma nth_error_in_range (s : jsstring) i c :
  nth_error s i = Some c -> (i < length s)%nat.
Proof. intros H. apply nth_error_Some. congruence. Qed.

(** ** The cases of [getAllFormulas] *)

Lemma getAllFormulas_end formula index :
  nth_error formula index = None -> getAllFormulas formula index = [ [] ].
Proof. intros H. rewrite getAllFormulas_body, H. reflexivity. Qed.

Lemma getAllFormulas_letter formula index c :
  nth_error formula index = Some c -> isAlpha c = true ->
  getAllFormulas formula index
  = twoLetterCandidates formula index ++ oneLetterCandidates formula index c.
Proof. intros H Ha. rewrite getAllFormulas_body, H, Ha. reflexivity. Qed.

Lemma getAllFormulas_literal formula index c :
  nth_error formula index = Some c -> isAlpha c = false ->
  getAllFormulas formula index
  = map (fun rest => c :: rest) (getAllFormulas formula (index + 1)).
Proof. intros H Ha. rewrite getAllFormulas_body, H, Ha. reflexivity. Qed.

Lemma position_cases formula index : position formula index.
Proof.
  destruct (nth_error formula index) as [c|] eqn:H.
  - destruct (isAlpha c) eqn:Ha; [eapply at_letter | eapply at_literal]; eauto.
  - now apply at_end.
Qed.

(** The two-letter branch, once its three tests are decided. *)
Lemma twoLetterCandidates_match formula index c c1 :
  nth_error formula index = Some c ->
  nth_error formula (index + 1) = Some c1 ->
  isAlpha c1 = true ->
  has ELEMENTS (toUpperCase [c] ++ toLowerCase [c1]) = true ->
  twoLetterCandidates formula index
  = map (fun rest =>
           (toUpperCase [c] ++ toLowerCase [c1])
             ++ subscriptOf (snd (collectDigits formula (index + 2) []))
             ++ rest)
        (getAllFormulas formula (fst (collectDigits formula (index + 2) []))).
Proof.
  intros H H1 Ha1 He. unfold twoLetterCandidates.
  rewrite H1, Ha1. cbv zeta.
  rewrite (capitalized_units _ _ _ _ H H1), He. reflexivity.
Qed.

Lemma twoLetterCandidates_no_element formula index c c1 :
  nth_error formula index = Some c ->
  nth_error formula (index + 1) = Some c1 ->
  has ELEMENTS (toUpperCase [c] ++ toLowerCase [c1]) = false ->
  twoLetterCandidates formula index = [].
Proof.
  intros H H1 He. unfold twoLetterCandidates.
  rewrite H1. destruct (isAlpha c1); [|reflexivity]. cbv zeta.
  rewrite (capitalized_units _ _ _ _ H H1), He. reflexivity.
Qed.

(** A digit (or anything that is no letter, or the end of the input) after
    the letter at [index] rules the two-letter branch out. *)
Lemma twoLetterCandidates_no_letter formula index :
  match nth_error formula (index + 1) with
  | Some c1 => isAlpha c1 = false
  | None => True
  end ->
  twoLetterCandidates formula index = [].
Proof.
  intros H. unfold twoLetterCandidates.
  destruct (nth_error formula (index + 1)) as [c1|]; [rewrite H|]; reflexivity.
Qed.

(** ** The enumerator never comes back empty-handed *)

Lemma getAllFormulas_nonempty formula index :
  getAllFormulas formula index <> [].
Proof.
  induction index as [i IH] using (index_induction formula).
  destruct (position_cases formula i) as [H | c H Ha | c H Ha].
  - rewrite (getAllFormulas_end _ _ H). discriminate.
  - rewrite (getAllFormulas_letter _ _ _ H Ha). intros E.
    apply app_eq_nil in E. destruct E as [_ E]. apply map_eq_nil in E.
    revert E. apply IH, closer_after_digits; [|lia].
    exact (nth_error_in_range _ _ _ H).
  - rewrite (getAllFormulas_literal _ _ _ H Ha). intros E.
    apply map_eq_nil in E. revert E. apply IH.
    pose proof (nth_error_in_range _ _ _ H). lia.
Qed.

(** C1. For every input string, [enumerate] (a total function: the model has
    no error outcome) returns a list with a first candidate, so never an
    empty one; on the empty string it returns exactly [[""]]. *)
Theorem enumerate_nonempty :
  (forall s : jsstring, exists first others, enumerate s = first :: others)
  /\ enumerate (str "") = [ str "" ].
Proof.
  split.
  - intros s. pose proof (getAllFormulas_nonempty s 0) as H.
    unfold enumerate. destruct (getAllFormulas s 0) as [|first others].
    + contradiction.
    + now exists first, others.
  - reflexivity.
Qed.

(** ** Single letters *)

Lemma enumerate_one_unit c :
  enumerate [c] = if isAlpha c then [toUpperCase [c]] else [ [c] ].
Proof.
  unfold enumerate.
  assert (E : getAllFormulas [c] 1 = [ [] ]) by now apply getAllFormulas_end.
  destruct (isAlpha c) eqn:Ha.
  - rewrite (getAllFormulas_letter [c] 0 c eq_refl Ha).
    rewrite twoLetterCandidates_no_letter by exact I.
    unfold oneLetterCandidates.
    rewrite (collectDigits_none [c] (0 + 1) []) by exact I.
    simpl fst; simpl snd. change (0 + 1)%nat with 1%nat. rewrite E.
    simpl. now rewrite app_nil_r.
  - rewrite (getAllFormulas_literal [c] 0 c eq_refl Ha).
    change (0 + 1)%nat with 1%nat. rewrite E. reflexivity.
Qed.

(** C2. [enumerate("x")] is exactly [["X"]], although "X" is not in the
    element table: a one-unit input that is a letter yields its uppercase
    form as the only candidate, whatever the letter (and a one-unit input
    that is no letter yields itself). *)
Theorem enumerate_x :
  enumerate (str "x") = [ str "X" ]
  /\ has ELEMENTS (str "X") = false
  /\ forall c, enumerate [c] = if isAlpha c then [toUpperCase [c]] else [ [c] ].
Proof.
  split; [reflexivity|]. split; [reflexivity|]. exact enumerate_one_unit.
Qed.

(** ** Inputs made of digits *)

Lemma digits_passthrough formula :
  forallb isDigit formula = true ->
  forall index, getAllFormulas formula index = [ skipn index formula ].
Proof.
  intros Hd index.
  induction index as [i IH] using (index_induction formula).
  destruct (nth_error formula i) as [c|] eqn:H.
  - assert (Ha : isAlpha c = false).
    { apply isDigit_not_alpha.
      rewrite forallb_forall in Hd. apply Hd.
      eapply nth_error_In; eauto. }
    rewrite (getAllFormulas_literal _ _ _ H Ha), IH.
    + simpl. rewrite Nat.add_1_r, <- (skipn_nth_error _ _ _ H). reflexivity.
    + pose proof (nth_error_in_range _ _ _ H). lia.
  - rewrite (getAllFormulas_end _ _ H).
    rewrite skipn_all2; [reflexivity|]. now apply nth_error_None.
Qed.

(** C3. On an input made of ASCII digits only, [enumerate] returns the
    one-element list holding the input itself: every unit takes the literal
    branch and no subscript glyph is produced. *)
Theorem enumerate_digits (input : jsstring) :
  forallb isDigit input = true -> enumerate input = [ input ].
Proof.
  intros Hd. unfold enumerate. now rewrite digits_passthrough.
Qed.

Lemma enumerate_digits_witness :
  forallb isDigit (str "123") = true /\ enumerate (str "123") = [ str "123" ].
Proof.
  split; [reflexivity | apply (enumerate_digits (str "123")); reflexivity].
Defined.

(** ** Ambiguity *)

(** C5. "co" yields both "Co" (cobalt) and "CO" (carbon, oxygen).  "h2o"
    yields "H₂O" and nothing else: the two-letter branch pushes nothing at
    the "h", because the unit after it is a digit, and no candidate starts
    with the pair "H2". *)
Theorem enumerate_co_h2o :
  In (str "Co") (enumerate (str "co"))
  /\ In (str "CO") (enumerate (str "co"))
  /\ In [72; 0x2082; 79] (enumerate (str "h2o"))
  /\ twoLetterCandidates (str "h2o") 0 = []
  /\ enumerate (str "h2o") = [ [72; 0x2082; 79] ]
  /\ existsb (fun cand => jsstring_eqb (firstn 2 cand) (str "H2"))
             (enumerate (str "h2o")) = false.
Proof.
  repeat split; vm_compute; tauto.
Qed.

(** ** [toSubscript] *)

Lemma subscript_lookup c :
  orElse (lookup SUBSCRIPT_MAP [c]) [c] = [subscriptUnit c].
Proof.
  unfold subscriptUnit, isDigit, SUBSCRIPT_MAP.
  cbn -[Z.eqb Z.leb Z.add Z.sub].
  repeat match goal with
         | |- context [?k =? c] =>
             destruct (Z.eqb_spec k c) as [<-|?];
             [reflexivity | cbn -[Z.eqb Z.leb Z.add Z.sub]]
         end.
  destruct (Z.leb_spec 48 c), (Z.leb_spec c 57); try reflexivity.
  exfalso; lia.
Qed.

Lemma toSubscript_map s : toSubscript s = map subscriptUnit s.
Proof.
  unfold toSubscript, join, split.
  induction s as [|c s IH]; [reflexivity|].
  cbn [map concat]. rewrite subscript_lookup, IH. reflexivity.
Qed.

Lemma subscriptUnit_not_digit c : isDigit (subscriptUnit c) = false.
Proof.
  unfold subscriptUnit. destruct (isDigit c) eqn:E; [|exact E].
  unfold isDigit in *. lia.
Qed.

(** C7. [toSubscript] works unit by unit: a digit becomes its subscript
    glyph, any other unit stays; so the empty string stays empty, the
    conversion distributes over concatenation, its output holds no ASCII
    digit, and converting twice is converting once. *)
Theorem toSubscript_pointwise_idempotent :
  toSubscript (str "") = str ""
  /\ toSubscript (str "0123456789")
     = [0x2080; 0x2081; 0x2082; 0x2083; 0x2084;
        0x2085; 0x2086; 0x2087; 0x2088; 0x2089]
  /\ (forall s, toSubscript s
                = map (fun c => if isDigit c then c - 48 + 0x2080 else c) s)
  /\ (forall a b, toSubscript (a ++ b) = toSubscript a ++ toSubscript b)
  /\ (forall s, existsb isDigit (toSubscript s) = false)
  /\ (forall s, toSubscript (toSubscript s) = toSubscript s).
Proof.
  split; [reflexivity|]. split; [reflexivity|].
  split; [exact toSubscript_map|].
  split; [intros a b; now rewrite !toSubscript_map, map_app|].
  split; intros s; rewrite !toSubscript_map.
  - induction s as [|c s IH]; [reflexivity|].
    simpl. now rewrite subscriptUnit_not_digit, IH.
  - rewrite map_map. apply map_ext. intros c.
    unfold subscriptUnit at 1. now rewrite subscriptUnit_not_digit.
Qed.

(** ** Order of the candidates *)

(** After a letter that is followed by a letter, the one-letter branch
    collects no digit and continues right behind the letter. *)
Lemma oneLetterCandidates_before_letter formula index c c1 :
  nth_error formula (index + 1) = Some c1 -> isAlpha c1 = true ->
  oneLetterCandidates formula index c
  = map (fun rest => toUpperCase [c] ++ rest)
        (getAllFormulas formula (index + 1)).
Proof.
  intros H1 Ha1. unfold oneLetterCandidates.
  rewrite collectDigits_none
    by (rewrite H1; now apply isAlpha_not_digit).
  reflexivity.
Qed.

(** Where both branches apply (a letter, followed by a letter, the
    capitalized pair in the element table), the result is the candidates of
    the two-letter branch followed by those of the one-letter branch. *)
Lemma both_branches_order formula index c c1 :
  nth_error formula index = Some c -> isAlpha c = true ->
  nth_error formula (index + 1) = Some c1 -> isAlpha c1 = true ->
  has ELEMENTS (toUpperCase [c] ++ toLowerCase [c1]) = true ->
  getAllFormulas formula index
  = map (fun rest =>
           (toUpperCase [c] ++ toLowerCase [c1])
             ++ subscriptOf (snd (collectDigits formula (index + 2) []))
             ++ rest)
        (getAllFormulas formula (fst (collectDigits formula (index + 2) [])))
    ++ map (fun rest =>
              toUpperCase [c]
                ++ subscriptOf (snd (collectDigits formula (index + 1) []))
                ++ rest)
           (getAllFormulas formula (fst (collectDigits formula (index + 1) []))).
Proof.
  intros H Ha H1 Ha1 He.
  rewrite (getAllFormulas_letter _ _ _ H Ha).
  rewrite (twoLetterCandidates_match _ _ _ _ H H1 Ha1 He).
  reflexivity.
Qed.

(** Where only the one-letter branch applies. *)
Lemma one_branch_order formula index c :
  nth_error formula index = Some c -> isAlpha c = true ->
  match nth_error formula (index + 1) with
  | Some c1 =>
      isAlpha c1 && has ELEMENTS (toUpperCase [c] ++ toLowerCase [c1]) = false
  | None => True
  end ->
  getAllFormulas formula index
  = map (fun rest =>
           toUpperCase [c]
             ++ subscriptOf (snd (collectDigits formula (index + 1) []))
             ++ rest)
        (getAllFormulas formula (fst (collectDigits formula (index + 1) []))).
Proof.
  intros H Ha Hno.
  rewrite (getAllFormulas_letter _ _ _ H Ha).
  destruct (nth_error formula (index + 1)) as [c1|] eqn:H1.
  - destruct (isAlpha c1) eqn:Ha1.
    + now rewrite (twoLetterCandidates_no_element _ _ _ _ H H1 Hno).
    + now rewrite twoLetterCandidates_no_letter by (rewrite H1; exact Ha1).
  - now rewrite twoLetterCandidates_no_letter by (now rewrite H1).
Qed.

(** C6. At every call the result is fixed, order and multiplicity
    included, by the results of the calls on the remainder.  At the end of
    the input it is the one empty candidate.  At a character that is no
    letter it is the candidates of the remainder, in their order, each
    behind that character.  At a letter it is the candidates of the
    remainder behind the one-letter token, in their order; and where the
    letter and the next one spell an element of the table, the candidates
    of the two-letter branch, in the order of their remainder, all come
    first: position [k] holds the [k]-th two-letter candidate as long as
    there is one, and the one-letter candidates follow.  Nothing is
    dropped, merged or moved: the lengths add up.  So "+co" gives "+Co"
    before "+CO", and "coh" gives "CoH" before "COH". *)
Theorem candidates_in_recursion_order :
  (forall (formula : jsstring) (index : nat),
     let result := getAllFormulas formula index in
     let behind n :=
       getAllFormulas formula (fst (collectDigits formula (index + n) [])) in
     let subscript n :=
       subscriptOf (snd (collectDigits formula (index + n) [])) in
     match nth_error formula index with
     | None => result = [ [] ]
     | Some c =>
         if isAlpha c then
           let one :=
             map (fun rest => toUpperCase [c] ++ subscript 1%nat ++ rest)
                 (behind 1%nat) in
           match nth_error formula (index + 1) with
           | Some c1 =>
               if isAlpha c1
                  && has ELEMENTS (toUpperCase [c] ++ toLowerCase [c1])
               then
                 let two :=
                   map (fun rest =>
                          (toUpperCase [c] ++ toLowerCase [c1])
                            ++ subscript 2%nat ++ rest)
                       (behind 2%nat) in
                 result = two ++ one
                 /\ (forall k,
                        nth_error result k
                        = if (k <? length two)%nat then nth_error two k
                          else nth_error one (k - length two))
                 /\ length result
                    = (length (behind 2%nat) + length (behind 1%nat))%nat
               else result = one
           | None => result = one
           end
         else
           result
           = map (fun rest => c :: rest) (getAllFormulas formula (index + 1))
           /\ length result = length (getAllFormulas formula (index + 1))
     end)
  /\ enumerate (str "+co") = [ str "+Co"; str "+CO" ]
  /\ enumerate (str "coh") = [ str "CoH"; str "COH" ].
Proof.
  split; [|split; reflexivity].
  intros formula index. cbv zeta.
  destruct (nth_error formula index) as [c|] eqn:H;
    [|now apply getAllFormulas_end].
  destruct (isAlpha c) eqn:Ha.
  - destruct (nth_error formula (index + 1)) as [c1|] eqn:H1.
    + destruct (isAlpha c1
                && has ELEMENTS (toUpperCase [c] ++ toLowerCase [c1])) eqn:He.
      * apply andb_prop in He. destruct He as [Ha1 He].
        rewrite (both_branches_order _ _ _ _ H Ha H1 Ha1 He).
        split; [reflexivity|]. split.
        -- intros k. destruct (Nat.ltb_spec k (length (map
             (fun rest => (toUpperCase [c] ++ toLowerCase [c1])
                ++ subscriptOf (snd (collectDigits formula (index + 2) []))
                ++ rest)
             (getAllFormulas formula
                (fst (collectDigits formula (index + 2) [])))))).
           ++ now apply nth_error_app1.
           ++ now apply nth_error_app2.
        -- now rewrite length_app, !length_map.
      * apply (one_branch_order _ _ _ H Ha). now rewrite H1.
    + apply (one_branch_order _ _ _ H Ha). now rewrite H1.
  - rewrite (getAllFormulas_literal _ _ _ H Ha).
    split; [reflexivity | apply length_map].
Qed.

(** ** The single-result formatter against the enumerator *)

Lemma hd_map_app {A B} (g : A -> B) (l : list A) (l' : list B) d d' :
  l <> [] -> hd d' (map g l ++ l') = g (hd d l).
Proof. destruct l; [contradiction | reflexivity]. Qed.

Lemma join_pushSubscript result elem num :
  join (pushSubscript (result ++ [elem]) num)
  = join result ++ elem ++ subscriptOf num.
Proof.
  unfold join, pushSubscript, subscriptOf.
  destruct num as [|d num]; rewrite !concat_app; simpl;
    now rewrite ?app_nil_r, <- ?app_assoc.
Qed.

Lemma hd_map {A B} (g : A -> B) (l : list A) d d' :
  l <> [] -> hd d' (map g l) = g (hd d l).
Proof. destruct l; [contradiction | reflexivity]. Qed.

(** The head of a branch's candidates is the branch's prefix in front of
    the head of the candidates of the remainder. *)
Ltac head_of_branch :=
  cbn [fst snd app];
  first [ rewrite (hd_map_app _ _ _ []) by apply getAllFormulas_nonempty
        | rewrite (hd_map _ _ []) by apply getAllFormulas_nonempty ];
  rewrite <- ?app_assoc; reflexivity.

(** The first candidate at a letter starts with the element that
    [formatFormula] picks there and continues from where it continues. *)
Lemma first_candidate_letter formula i c :
  nth_error formula i = Some c -> isAlpha c = true ->
  let elem := fst (matchElement formula i c) in
  let i1 := snd (matchElement formula i c) in
  let i2 := fst (collectDigits formula i1 []) in
  let num := snd (collectDigits formula i1 []) in
  hd [] (getAllFormulas formula i)
  = elem ++ subscriptOf num ++ hd [] (getAllFormulas formula i2).
Proof.
  intros H Ha. cbv zeta.
  rewrite (getAllFormulas_letter _ _ _ H Ha).
  unfold twoLetterCandidates, matchElement, oneLetterCandidates.
  destruct (nth_error formula (i + 1)) as [c1|]; [|head_of_branch].
  destruct (isAlpha c1); [|head_of_branch]. cbv zeta.
  match goal with
  | |- context [has ELEMENTS ?x] => destruct (has ELEMENTS x)
  end; head_of_branch.
Qed.

Lemma formatLoop_first_candidate formula i :
  forall result,
    join (formatLoop formula i result)
    = join result ++ hd [] (getAllFormulas formula i).
Proof.
  induction i as [i IH] using (index_induction formula). intros result.
  rewrite formatLoop_body.
  destruct (position_cases formula i) as [H | c H Ha | c H Ha]; rewrite H.
  - rewrite (getAllFormulas_end _ _ H). simpl. now rewrite app_nil_r.
  - rewrite Ha. cbv zeta.
    pose proof (matchElement_index_gt formula i c) as Hgt.
    pose proof (collectDigits_index_ge formula
                  (snd (matchElement formula i c)) []) as Hge.
    pose proof (nth_error_in_range _ _ _ H) as Hi.
    rewrite IH by lia.
    rewrite join_pushSubscript, (first_candidate_letter _ _ _ H Ha).
    cbv zeta. now rewrite <- !app_assoc.
  - rewrite Ha. pose proof (nth_error_in_range _ _ _ H) as Hi.
    rewrite IH by lia.
    rewrite (getAllFormulas_literal _ _ _ H Ha).
    rewrite (hd_map _ _ []) by apply getAllFormulas_nonempty.
    unfold join. rewrite concat_app. simpl. now rewrite <- app_assoc.
Qed.

(** C8. [formatFormula], which takes the two-letter element where the
    table has it and the single letter otherwise, returns the first
    candidate of [enumerate] on every input; so it is one of the candidates,
    built from the same tokens with the same subscripts. *)
Theorem formatFormula_first_candidate :
  forall s : jsstring,
    hd_error (enumerate s) = Some (formatFormula s)
    /\ In (formatFormula s) (enumerate s).
Proof.
  intros s.
  assert (E : hd_error (enumerate s) = Some (formatFormula s)).
  { unfold formatFormula, enumerate.
    rewrite formatLoop_first_candidate. simpl.
    pose proof (getAllFormulas_nonempty s 0) as Hne.
    destruct (getAllFormulas s 0); [contradiction | reflexivity]. }
  split; [exact E|].
  destruct (enumerate s) as [|x l]; [discriminate|].
  injection E as ->. now left.
Qed.

(** ** The copy history *)

Lemma removelast_length {A} (l : list A) :
  length (removelast l) = pred (length l).
Proof.
  rewrite removelast_firstn_len, length_firstn. lia.
Qed.

Lemma removelast_cons {A} (e : A) (l : list A) :
  l <> [] -> removelast (e :: l) = e :: removelast l.
Proof. destruct l; [contradiction | reflexivity]. Qed.

(** What a successful copy leaves in [history]. *)
Lemma copyFormula_resolved_history orig formula p :
  history (copyFormula Resolved orig formula p)
  = {| original := orig; formatted := formula |}
      :: (if (5 <=? length (history p))%nat
          then removelast (history p) else history p).
Proof.
  unfold copyFormula, unshift, pop, showFeedback. cbn [history length].
  destruct (Nat.ltb_spec 5 (S (length (history p)))) as [Hgt|Hle];
    destruct (Nat.leb_spec 5 (length (history p))) as [Hge|Hlt];
    try lia; [|reflexivity].
  apply removelast_cons. intros E. rewrite E in Hge. simpl in Hge. lia.
Qed.

Lemma reachable_history_bound p :
  reachable p -> (length (history p) <= 5)%nat.
Proof.
  induction 1 as [|message type p Hp IH|w orig formula p Hp IH];
    [simpl; lia | exact IH |].
  destruct w; [|exact IH].
  rewrite copyFormula_resolved_history. cbn [length].
  destruct (Nat.leb_spec 5 (length (history p))); [|lia].
  rewrite removelast_length. lia.
Qed.

(** C9. From any page the widget can be in, one call of [copyFormula]:
    if the clipboard write is rejected, [history] is what it was and the
    feedback shown is the error message; if it resolves, the new entry
    (original query, formatted formula) is at the front, followed by the
    former entries in their order, the last of them dropped when there were
    already five.  Either way [history] holds at most five entries. *)
Theorem copyFormula_history p w orig formula :
  reachable p ->
  let p' := copyFormula w orig formula p in
  let entry := {| original := orig; formatted := formula |} in
  (length (history p') <= 5)%nat
  /\ match w with
     | Rejected =>
         history p' = history p
         /\ feedback p' = Some (failedMessage, error)
     | Resolved =>
         history p' = entry :: (if (length (history p) =? 5)%nat
                                then removelast (history p) else history p)
         /\ history p' = firstn 5 (entry :: history p)
         /\ length (history p') = Nat.min 5 (S (length (history p)))
         /\ feedback p' = Some (copiedMessage formula, success)
     end.
Proof.
  intros Hp p' entry.
  pose proof (reachable_history_bound p Hp) as Hb.
  split.
  - apply reachable_history_bound. now constructor.
  - destruct w; [|split; reflexivity].
    assert (E : history p' =
                entry :: (if (length (history p) =? 5)%nat
                          then removelast (history p) else history p)).
    { subst p' entry. rewrite copyFormula_resolved_history.
      destruct (Nat.leb_spec 5 (length (history p))),
               (Nat.eqb_spec (length (history p)) 5); try reflexivity; lia. }
    rewrite E. repeat split.
    + change 5%nat with (S 4) at 2. rewrite firstn_cons. f_equal.
      destruct (Nat.eqb_spec (length (history p)) 5) as [H5|H5].
      * rewrite removelast_firstn_len, H5. reflexivity.
      * symmetry. apply firstn_all2. lia.
    + cbn [length].
      destruct (Nat.eqb_spec (length (history p)) 5) as [H5|H5].
      * rewrite removelast_length, H5. reflexivity.
      * lia.
Qed.

Lemma copyFormula_history_witness :
  reachable initialPage
  /\ history (copyFormula Resolved (str "h2o") [72; 0x2082; 79] initialPage)
     = [ {| original := str "h2o"; formatted := [72; 0x2082; 79] |} ].
Proof.
  split; [constructor|].
  apply (copyFormula_history initialPage Resolved (str "h2o") [72; 0x2082; 79]).
  constructor.
Defined.

(** ** Case of ASCII letters *)

Ltac split_comparisons :=
  repeat match goal with
         | |- context [?a =? ?b] => destruct (Z.eqb_spec a b)
         | |- context [?a <=? ?b] => destruct (Z.leb_spec a b)
         end;
  cbn [andb orb negb];
  try reflexivity; try discriminate; try (exfalso; lia).

Lemma upperUnit_ascii c : 0 <= c < 128 -> upperUnit c = [asciiUpper c].
Proof.
  intros Hc. unfold upperUnit, asciiUpper, isLowerAZ.
  destruct (Z.leb_spec 97 c), (Z.leb_spec c 122); cbn [andb];
    try reflexivity; split_comparisons.
Qed.

Lemma lowerUnit_ascii c : 0 <= c < 128 -> lowerUnit c = [asciiLower c].
Proof.
  intros Hc. unfold lowerUnit, asciiLower, isUpperAZ.
  destruct (Z.leb_spec 65 c), (Z.leb_spec c 90); cbn [andb];
    try reflexivity; split_comparisons.
Qed.

Lemma isAlpha_ascii c : isAlpha c = true -> 0 <= c < 128.
Proof. unfold isAlpha, isLowerAZ, isUpperAZ. lia. Qed.

Lemma toUpperCase_letter c :
  isAlpha c = true -> toUpperCase [c] = [asciiUpper c].
Proof.
  intros Ha. unfold toUpperCase. simpl.
  rewrite upperUnit_ascii by now apply isAlpha_ascii. reflexivity.
Qed.

Lemma toLowerCase_letter c :
  isAlpha c = true -> toLowerCase [c] = [asciiLower c].
Proof.
  intros Ha. unfold toLowerCase. simpl.
  rewrite lowerUnit_ascii by now apply isAlpha_ascii. reflexivity.
Qed.

Lemma upper_lower_differ c : isAlpha c = true -> asciiUpper c <> asciiLower c.
Proof.
  unfold isAlpha, asciiUpper, asciiLower, isLowerAZ, isUpperAZ. intros Ha.
  destruct (Z.leb_spec 97 c), (Z.leb_spec c 122),
           (Z.leb_spec 65 c), (Z.leb_spec c 90); cbn [andb]; lia.
Qed.

(** ** No candidate twice *)

Lemma NoDup_map_injective {A B} (g : A -> B) (l : list A) :
  (forall x y, g x = g y -> x = y) -> NoDup l -> NoDup (map g l).
Proof.
  intros Hg. induction 1 as [|x l Hx Hl IH]; simpl; constructor; [|exact IH].
  intros Hin. apply in_map_iff in Hin. destruct Hin as (y & E & Hy).
  apply Hg in E. now subst y.
Qed.

Lemma NoDup_prefixed (p q : jsstring) (l : list jsstring) :
  NoDup l -> NoDup (map (fun rest => p ++ q ++ rest) l).
Proof.
  apply NoDup_map_injective. intros x y E.
  now apply app_inv_head in E; apply app_inv_head in E.
Qed.

Lemma twoLetterCandidates_cases formula index c :
  nth_error formula index = Some c ->
  twoLetterCandidates formula index = []
  \/ exists c1,
       nth_error formula (index + 1) = Some c1
       /\ isAlpha c1 = true
       /\ has ELEMENTS (toUpperCase [c] ++ toLowerCase [c1]) = true.
Proof.
  intros H.
  destruct (nth_error formula (index + 1)) as [c1|] eqn:H1.
  - destruct (isAlpha c1) eqn:Ha1.
    + destruct (has ELEMENTS (toUpperCase [c] ++ toLowerCase [c1])) eqn:He.
      * right. now exists c1.
      * left. eapply twoLetterCandidates_no_element; eauto.
    + left. apply twoLetterCandidates_no_letter. now rewrite H1.
  - left. apply twoLetterCandidates_no_letter. now rewrite H1.
Qed.

(** Every candidate at a letter starts with that letter, uppercased. *)
Lemma candidates_start_upper formula index c cand :
  nth_error formula index = Some c -> isAlpha c = true ->
  In cand (getAllFormulas formula index) ->
  exists rest, cand = asciiUpper c :: rest.
Proof.
  intros H Ha Hin. rewrite (getAllFormulas_letter _ _ _ H Ha) in Hin.
  apply in_app_or in Hin. destruct Hin as [Hin|Hin].
  - destruct (twoLetterCandidates_cases _ _ _ H) as [E|(c1 & H1 & Ha1 & He)].
    + rewrite E in Hin. contradiction.
    + rewrite (twoLetterCandidates_match _ _ _ _ H H1 Ha1 He) in Hin.
      apply in_map_iff in Hin. destruct Hin as (rest & <- & _).
      rewrite (toUpperCase_letter _ Ha). simpl. eauto.
  - unfold oneLetterCandidates in Hin.
    apply in_map_iff in Hin. destruct Hin as (rest & <- & _).
    rewrite (toUpperCase_letter _ Ha). simpl. eauto.
Qed.

Lemma getAllFormulas_NoDup formula index :
  NoDup (getAllFormulas formula index).
Proof.
  induction index as [i IH] using (index_induction formula).
  destruct (position_cases formula i) as [H | c H Ha | c H Ha].
  - rewrite (getAllFormulas_end _ _ H). repeat constructor. intros [].
  - pose proof (nth_error_in_range _ _ _ H) as Hi.
    rewrite (getAllFormulas_letter _ _ _ H Ha).
    assert (Hone : NoDup (oneLetterCandidates formula i c)).
    { apply NoDup_prefixed, IH, closer_after_digits; [exact Hi | lia]. }
    destruct (twoLetterCandidates_cases _ _ _ H) as [E|(c1 & H1 & Ha1 & He)].
    + rewrite E. exact Hone.
    + rewrite (twoLetterCandidates_match _ _ _ _ H H1 Ha1 He).
      apply NoDup_app; [| exact Hone |].
      * apply NoDup_map_injective.
        { intros x y E. now do 2 apply app_inv_head in E. }
        apply IH, closer_after_digits; [exact Hi | lia].
      * intros cand Htwo Hone'.
        apply in_map_iff in Htwo. destruct Htwo as (rest2 & <- & _).
        rewrite (oneLetterCandidates_before_letter _ _ _ _ H1 Ha1) in Hone'.
        apply in_map_iff in Hone'. destruct Hone' as (rest1 & E & Hrest1).
        destruct (candidates_start_upper _ _ _ _ H1 Ha1 Hrest1) as (r & ->).
        rewrite (toUpperCase_letter _ Ha), (toLowerCase_letter _ Ha1) in E.
        simpl in E. injection E as E _.
        now apply (upper_lower_differ c1).
  - rewrite (getAllFormulas_literal _ _ _ H Ha).
    apply NoDup_map_injective.
    + intros x y E. now injection E.
    + apply IH. pose proof (nth_error_in_range _ _ _ H). lia.
Qed.

(** C10. The candidates of [enumerate] are pairwise distinct, for every
    input: where the two branches meet, the second unit of a two-letter
    candidate is a lowercase letter and that of a one-letter candidate the
    same letter in uppercase. *)
Theorem enumerate_NoDup : forall s : jsstring, NoDup (enumerate s).
Proof. intros s. apply getAllFormulas_NoDup. Qed.

(** ** Case of the input *)

(** A change of the input's letters that [getAllFormulas] cannot see: it
    keeps what is no letter, maps letters to letters, and commutes with the
    case conversions the function applies. *)
Section LetterCase.

Variable g : Z -> Z.
Hypothesis g_literal : forall c, isAlpha c = false -> g c = c.
Hypothesis g_letter : forall c, isAlpha c = true -> isAlpha (g c) = true.
Hypothesis g_upper :
  forall c, isAlpha c = true -> asciiUpper (g c) = asciiUpper c.
Hypothesis g_lower :
  forall c, isAlpha c = true -> asciiLower (g c) = asciiLower c.

Lemma recased_isAlpha c : isAlpha (g c) = isAlpha c.
Proof.
  destruct (isAlpha c) eqn:Ha; [now apply g_letter|].
  now rewrite g_literal.
Qed.

Lemma recased_isDigit c : isDigit (g c) = isDigit c.
Proof.
  destruct (isAlpha c) eqn:Ha.
  - rewrite (isAlpha_not_digit _ Ha).
    now apply isAlpha_not_digit, g_letter.
  - now rewrite g_literal.
Qed.

Lemma recased_collectDigits formula digitIndex num :
  collectDigits (map g formula) digitIndex num
  = collectDigits formula digitIndex num.
Proof.
  funelim (collectDigits formula digitIndex num);
    rewrite (collectDigits_body (map g formula)), nth_error_map;
    match goal with
    | H : nth_error _ _ = _ |- _ => rewrite H
    end; cbn [option_map]; try reflexivity;
    rewrite recased_isDigit, Heq.
  - rewrite (g_literal c) by now apply isDigit_not_alpha.
    match goal with
    | IH : collectDigits (map g _) _ _ = _ |- _ => rewrite IH
    end.
    reflexivity.
  - reflexivity.
Qed.

Lemma recased_twoLetterCandidates formula index c :
  nth_error formula index = Some c -> isAlpha c = true ->
  getAllFormulas (map g formula)
                 (fst (collectDigits formula (index + 2) []))
  = getAllFormulas formula (fst (collectDigits formula (index + 2) [])) ->
  twoLetterCandidates (map g formula) index
  = twoLetterCandidates formula index.
Proof.
  intros H Ha IH.
  assert (Hg : nth_error (map g formula) index = Some (g c))
    by (now rewrite nth_error_map, H).
  unfold twoLetterCandidates.
  rewrite nth_error_map.
  destruct (nth_error formula (index + 1)) as [c1|] eqn:H1;
    cbn [option_map]; [|reflexivity].
  assert (Hg1 : nth_error (map g formula) (index + 1) = Some (g c1))
    by (now rewrite nth_error_map, H1).
  rewrite recased_isAlpha.
  destruct (isAlpha c1) eqn:Ha1; [|reflexivity]. cbv zeta.
  rewrite (capitalized_units _ _ _ _ Hg Hg1), (capitalized_units _ _ _ _ H H1).
  rewrite (toUpperCase_letter (g c)), (toLowerCase_letter (g c1))
    by now apply g_letter.
  rewrite g_upper, g_lower by assumption.
  rewrite <- (toUpperCase_letter c), <- (toLowerCase_letter c1) by assumption.
  rewrite recased_collectDigits, IH. reflexivity.
Qed.

Lemma recased_getAllFormulas formula index :
  getAllFormulas (map g formula) index = getAllFormulas formula index.
Proof.
  induction index as [i IH] using (index_induction formula).
  destruct (position_cases formula i) as [H | c H Ha | c H Ha].
  - rewrite !getAllFormulas_end; [reflexivity | exact H |].
    now rewrite nth_error_map, H.
  - pose proof (nth_error_in_range _ _ _ H) as Hi.
    rewrite (getAllFormulas_letter _ _ _ H Ha).
    rewrite (getAllFormulas_letter (map g formula) i (g c));
      [| now rewrite nth_error_map, H | now apply g_letter].
    f_equal.
    + apply (recased_twoLetterCandidates _ _ _ H Ha).
      apply IH, closer_after_digits; [exact Hi | lia].
    + unfold oneLetterCandidates.
      rewrite recased_collectDigits, IH
        by (apply closer_after_digits; [exact Hi | lia]).
      rewrite (toUpperCase_letter (g c)) by now apply g_letter.
      rewrite g_upper, <- (toUpperCase_letter c) by assumption.
      reflexivity.
  - pose proof (nth_error_in_range _ _ _ H) as Hi.
    rewrite (getAllFormulas_literal _ _ _ H Ha).
    rewrite (getAllFormulas_literal (map g formula) i c).
    + rewrite IH by lia. reflexivity.
    + rewrite nth_error_map, H. cbn [option_map].
      now rewrite (g_literal _ Ha).
    + exact Ha.
Qed.

End LetterCase.

Ltac letter_cases :=
  unfold isAlpha, asciiUpper, asciiLower, isLowerAZ, isUpperAZ in *;
  repeat match goal with
         | |- context [?a <=? ?b] => destruct (Z.leb_spec a b)
         | H : context [?a <=? ?b] |- _ => destruct (Z.leb_spec a b)
         end;
  cbn [andb orb] in *;
  try reflexivity; try discriminate; try lia.

(** Uppercasing, or lowercasing, the ASCII letters of the input is such a
    change. *)
Lemma enumerate_asciiUpper s : enumerate (map asciiUpper s) = enumerate s.
Proof.
  apply recased_getAllFormulas; intros c Ha; letter_cases.
Qed.

Lemma enumerate_asciiLower s : enumerate (map asciiLower s) = enumerate s.
Proof.
  apply recased_getAllFormulas; intros c Ha; letter_cases.
Qed.

Lemma toUpperCase_ascii s :
  forallb isAscii s = true -> toUpperCase s = map asciiUpper s.
Proof.
  unfold toUpperCase. induction s as [|c s IH]; [reflexivity|].
  simpl. intros H. apply andb_prop in H. destruct H as [Hc Hs].
  rewrite upperUnit_ascii by (unfold isAscii in Hc; lia).
  now rewrite IH.
Qed.

Lemma toLowerCase_ascii s :
  forallb isAscii s = true -> toLowerCase s = map asciiLower s.
Proof.
  unfold toLowerCase. induction s as [|c s IH]; [reflexivity|].
  simpl. intros H. apply andb_prop in H. destruct H as [Hc Hs].
  rewrite lowerUnit_ascii by (unfold isAscii in Hc; lia).
  now rewrite IH.
Qed.

(** C4, as the code has it. For every input made of ASCII characters,
    [enumerate] returns the same list on the input, on the input converted
    to uppercase and on the input converted to lowercase. *)
Theorem enumerate_case_insensitive_ascii (s : jsstring) :
  forallb isAscii s = true ->
  enumerate (toUpperCase s) = enumerate s
  /\ enumerate (toLowerCase s) = enumerate s.
Proof.
  intros Hs.
  rewrite (toUpperCase_ascii _ Hs), (toLowerCase_ascii _ Hs).
  split; [apply enumerate_asciiUpper | apply enumerate_asciiLower].
Qed.

Lemma enumerate_case_insensitive_ascii_witness :
  forallb isAscii (str "H2So4") = true
  /\ enumerate (str "H2SO4") = enumerate (str "H2So4")
  /\ enumerate (str "h2so4") = enumerate (str "H2So4").
Proof.
  split; [reflexivity|].
  apply (enumerate_case_insensitive_ascii (str "H2So4")). reflexivity.
Defined.

(** C4, as stated, fails beyond ASCII: letters outside a-z and A-Z are
    literals to [getAllFormulas], while case conversion changes them.  The
    sharp s, a literal, becomes the two letters "SS" in uppercase; e with
    acute and its capital are two different literals. *)
Lemma enumerate_case_sensitive_latin1 :
  toUpperCase [0xDF] = str "SS"
  /\ enumerate [0xDF] = [ [0xDF] ]
  /\ enumerate (toUpperCase [0xDF]) = [ str "SS" ]
  /\ enumerate (toUpperCase [0xDF]) <> enumerate [0xDF]
  /\ enumerate (toUpperCase [0xE9]) <> enumerate [0xE9]
  /\ enumerate (toLowerCase [0xC9]) <> enumerate [0xC9].
Proof.
  repeat split; try reflexivity; vm_compute; discriminate.
Qed.

(** * Further properties of the formatter *)

(** ** The digit loop, by what it reads *)

Lemma collectDigits_run formula digitIndex num :
  collectDigits formula digitIndex num
  = ((digitIndex + length (digitRun (skipn digitIndex formula)))%nat,
     num ++ digitRun (skipn digitIndex formula)).
Proof.
  funelim (collectDigits formula digitIndex num).
  - rewrite skipn_all2 by now apply nth_error_None.
    simpl. now rewrite Nat.add_0_r, app_nil_r.
  - match goal with
    | IH : collectDigits _ _ _ = (_, _) |- _ => rewrite IH
    end.
    rewrite (skipn_nth_error _ _ _ Hc). cbn [digitRun]. rewrite Heq.
    cbn [length]. rewrite Nat.add_1_r, <- app_assoc. f_equal. lia.
  - rewrite (skipn_nth_error _ _ _ Hc). cbn [digitRun]. rewrite Heq.
    simpl. now rewrite Nat.add_0_r, app_nil_r.
Qed.

Lemma skipn_shift (f g : jsstring) i j k :
  skipn i f = skipn j g -> skipn (i + k) f = skipn (j + k) g.
Proof.
  intros E. rewrite (Nat.add_comm i), (Nat.add_comm j), <- !skipn_skipn.
  now rewrite E.
Qed.

Lemma nth_error_shift (f g : jsstring) i j k :
  skipn i f = skipn j g -> nth_error f (i + k) = nth_error g (j + k).
Proof.
  intros E. rewrite <- !hd_error_skipn. now rewrite (skipn_shift _ _ _ _ k E).
Qed.

(** ** The index against the substring *)

Lemma getAllFormulas_same_suffix formula index :
  forall g j,
    skipn index formula = skipn j g ->
    getAllFormulas formula index = getAllFormulas g j.
Proof.
  induction index as [i IH] using (index_induction formula). intros g j E.
  pose proof (nth_error_shift _ _ _ _ 0 E) as E0.
  pose proof (nth_error_shift _ _ _ _ 1 E) as E1.
  rewrite !Nat.add_0_r in E0.
  rewrite (getAllFormulas_body formula), (getAllFormulas_body g).
  rewrite <- E0, <- E1.
  destruct (nth_error formula i) as [c|] eqn:H; [|reflexivity].
  pose proof (nth_error_in_range _ _ _ H) as Hi.
  assert (Hrec : forall k, (0 < k)%nat ->
            getAllFormulas formula (fst (collectDigits formula (i + k) []))
            = getAllFormulas g (fst (collectDigits g (j + k) []))
            /\ snd (collectDigits formula (i + k) [])
               = snd (collectDigits g (j + k) [])).
  { intros k Hk. rewrite !collectDigits_run. cbn [fst snd].
    rewrite <- (skipn_shift _ _ _ _ k E). split; [|reflexivity].
    apply IH; [lia|].
    apply skipn_shift. now apply skipn_shift. }
  destruct (isAlpha c).
  - f_equal.
    + destruct (nth_error formula (i + 1)) as [c1|]; [|reflexivity].
      destruct (isAlpha c1); [|reflexivity]. cbv zeta.
      unfold substring.
      replace (i + 2 - i)%nat with 2%nat by lia.
      replace (j + 2 - j)%nat with 2%nat by lia.
      rewrite <- E.
      destruct (Hrec 2%nat ltac:(lia)) as [-> ->]. reflexivity.
    + cbv zeta. destruct (Hrec 1%nat ltac:(lia)) as [-> ->]. reflexivity.
  - f_equal. apply IH; [lia|]. now apply skipn_shift.
Qed.

Lemma getAllFormulas_skipn formula index :
  getAllFormulas formula index = enumerate (skipn index formula).
Proof.
  apply getAllFormulas_same_suffix. now rewrite skipn_0.
Qed.

(** X1. The exported [getAllFormulas] at an integer [index]: from 0 on,
    the [index] is a substring in disguise, the call returning what the
    call at the default index returns for the formula without its first
    [index] units, which at or beyond the end of the formula is the single
    empty candidate; below 0 the call raises a TypeError (where
    [substring], which clamps, would keep the whole formula). *)
Theorem getAllFormulas_index_substring :
  forall (formula : jsstring) (index : Z),
    (0 <= index ->
     getAllFormulasAt formula index
     = returned (enumerate (skipn (Z.to_nat index) formula)))
    /\ (Z.of_nat (length formula) <= index ->
        getAllFormulasAt formula index = returned [ [] ])
    /\ (index < 0 -> getAllFormulasAt formula index = typeError).
Proof.
  intros formula index. unfold getAllFormulasAt.
  destruct (Z.ltb_spec index 0) as [Hneg|Hpos].
  - repeat split; intros; try reflexivity; lia.
  - repeat split; intros; try lia.
    + now rewrite getAllFormulas_skipn.
    + f_equal. apply getAllFormulas_end, nth_error_None. lia.
Qed.

Lemma getAllFormulas_index_substring_witness :
  getAllFormulasAt (str "h2o") 1 = returned (enumerate (str "2o"))
  /\ getAllFormulasAt (str "h2o") 7 = returned [ [] ]
  /\ getAllFormulasAt (str "co") (-1) = typeError.
Proof.
  split; [|split].
  - apply (getAllFormulas_index_substring (str "h2o") 1). lia.
  - apply (getAllFormulas_index_substring (str "h2o") 7). simpl. lia.
  - apply (getAllFormulas_index_substring (str "co") (-1)). lia.
Defined.

(** ** [enumerate], unit by unit *)

Lemma afterDigits_length s : (length (afterDigits s) <= length s)%nat.
Proof. unfold afterDigits. rewrite length_skipn. lia. Qed.

Lemma digitRun_afterDigits s : digitRun s ++ afterDigits s = s.
Proof.
  unfold afterDigits. induction s as [|c s IH]; [reflexivity|].
  simpl. destruct (isDigit c); [|reflexivity].
  simpl. now rewrite IH.
Qed.

Lemma digitRun_no_digit s :
  match s with
  | c :: _ => isDigit c = false
  | [] => True
  end ->
  digitRun s = [] /\ afterDigits s = s.
Proof.
  unfold afterDigits. destruct s as [|c s]; [now split|].
  intros H. simpl. now rewrite H.
Qed.

Lemma enumerate_nil : enumerate [] = [ [] ].
Proof. reflexivity. Qed.

Lemma enumerate_literal c rest :
  isAlpha c = false ->
  enumerate (c :: rest) = map (fun y => c :: y) (enumerate rest).
Proof.
  intros Ha. unfold enumerate at 1.
  rewrite (getAllFormulas_literal (c :: rest) 0 c eq_refl Ha).
  now rewrite getAllFormulas_skipn.
Qed.

Lemma oneLetterCandidates_head c rest :
  oneLetterCandidates (c :: rest) 0 c
  = map (fun y => toUpperCase [c] ++ subscriptOf (digitRun rest) ++ y)
        (enumerate (afterDigits rest)).
Proof.
  unfold oneLetterCandidates. rewrite collectDigits_run. cbn [fst snd].
  rewrite getAllFormulas_skipn.
  rewrite (Nat.add_comm (0 + 1)), <- skipn_skipn. reflexivity.
Qed.

Lemma enumerate_single c rest :
  isAlpha c = true -> ambiguousHead (c :: rest) = false ->
  enumerate (c :: rest)
  = map (fun y => toUpperCase [c] ++ subscriptOf (digitRun rest) ++ y)
        (enumerate (afterDigits rest)).
Proof.
  intros Ha Hamb. unfold enumerate at 1.
  rewrite (getAllFormulas_letter (c :: rest) 0 c eq_refl Ha).
  rewrite oneLetterCandidates_head.
  destruct rest as [|c1 rest1].
  - now rewrite twoLetterCandidates_no_letter.
  - simpl in Hamb. unfold element in Hamb. rewrite Ha in Hamb. simpl in Hamb.
    destruct (isAlpha c1) eqn:Ha1.
    + simpl in Hamb.
      now rewrite (twoLetterCandidates_no_element (c :: c1 :: rest1) 0 c c1).
    + now rewrite twoLetterCandidates_no_letter by exact Ha1.
Qed.

Lemma enumerate_pair c c1 rest1 :
  element c c1 = true ->
  enumerate (c :: c1 :: rest1)
  = map (fun y => (toUpperCase [c] ++ toLowerCase [c1])
                    ++ subscriptOf (digitRun rest1) ++ y)
        (enumerate (afterDigits rest1))
    ++ map (fun y => toUpperCase [c] ++ y) (enumerate (c1 :: rest1)).
Proof.
  unfold element. intros He.
  apply andb_prop in He. destruct He as [He Hh].
  apply andb_prop in He. destruct He as [Ha Ha1].
  unfold enumerate at 1.
  rewrite (getAllFormulas_letter (c :: c1 :: rest1) 0 c eq_refl Ha).
  rewrite (twoLetterCandidates_match (c :: c1 :: rest1) 0 c c1
             eq_refl eq_refl Ha1 Hh).
  rewrite oneLetterCandidates_head.
  destruct (digitRun_no_digit (c1 :: rest1)) as [-> ->];
    [now apply isAlpha_not_digit|].
  rewrite collectDigits_run. cbn [fst snd].
  rewrite getAllFormulas_skipn. reflexivity.
Qed.

Lemma string_induction (P : jsstring -> Prop) :
  (forall s, (forall t, (length t < length s)%nat -> P t) -> P s) ->
  forall s, P s.
Proof.
  intros step s.
  remember (length s) as n eqn:Hn. revert s Hn.
  induction n as [n IH] using lt_wf_ind. intros s ->.
  apply step. intros t Ht. exact (IH _ Ht t eq_refl).
Qed.

(** The shapes an input can have, as [enumerate] sees them. *)
Variant shape : jsstring -> Prop :=
| shape_end : shape []
| shape_literal c rest : isAlpha c = false -> shape (c :: rest)
| shape_single c rest :
    isAlpha c = true -> ambiguousHead (c :: rest) = false ->
    shape (c :: rest)
| shape_pair c c1 rest1 : element c c1 = true -> shape (c :: c1 :: rest1).

Lemma shape_cases s : shape s.
Proof.
  destruct s as [|c rest]; [constructor|].
  destruct (isAlpha c) eqn:Ha; [|now constructor].
  destruct (ambiguousHead (c :: rest)) eqn:Hamb; [|now constructor].
  destruct rest as [|c1 rest1]; [discriminate|]. now constructor.
Qed.


(** ** What a candidate is made of *)

Lemma subscriptOf_map num : subscriptOf num = map subscriptUnit num.
Proof.
  destruct num as [|d num]; [reflexivity|].
  unfold subscriptOf. apply toSubscript_map.
Qed.

Lemma renders_subscripts num : Forall2 renders num (subscriptOf num).
Proof.
  rewrite subscriptOf_map. induction num as [|d num IH]; constructor.
  - unfold renders. tauto.
  - exact IH.
Qed.

Lemma enumerate_renders :
  forall s cand, In cand (enumerate s) -> Forall2 renders s cand.
Proof.
  induction s as [s IH] using string_induction. intros cand Hin.
  destruct (shape_cases s) as [|c rest Ha|c rest Ha Hamb|c c1 rest1 He].
  - destruct Hin as [<-|[]]. constructor.
  - rewrite (enumerate_literal _ _ Ha) in Hin.
    apply in_map_iff in Hin. destruct Hin as (y & <- & Hy).
    constructor; [left; reflexivity|].
    apply IH; [simpl; lia | exact Hy].
  - rewrite (enumerate_single _ _ Ha Hamb) in Hin.
    apply in_map_iff in Hin. destruct Hin as (y & <- & Hy).
    rewrite (toUpperCase_letter _ Ha). cbn [app].
    constructor; [right; left; reflexivity|].
    rewrite <- (digitRun_afterDigits rest) at 1.
    apply Forall2_app; [apply renders_subscripts|].
    apply IH; [|exact Hy].
    pose proof (afterDigits_length rest). simpl. lia.
  - pose proof He as He'. unfold element in He'.
    apply andb_prop in He'. destruct He' as [He' _].
    apply andb_prop in He'. destruct He' as [Ha Ha1].
    rewrite (enumerate_pair _ _ _ He) in Hin.
    rewrite (toUpperCase_letter _ Ha), (toLowerCase_letter _ Ha1) in Hin.
    apply in_app_or in Hin. destruct Hin as [Hin|Hin];
      apply in_map_iff in Hin; destruct Hin as (y & <- & Hy); cbn [app].
    + constructor; [right; left; reflexivity|].
      constructor; [right; right; left; reflexivity|].
      rewrite <- (digitRun_afterDigits rest1) at 1.
      apply Forall2_app; [apply renders_subscripts|].
      apply IH; [|exact Hy].
      pose proof (afterDigits_length rest1). simpl. lia.
    + constructor; [right; left; reflexivity|].
      apply IH; [simpl; lia | exact Hy].
Qed.

(** X2. Every candidate is the input rewritten in place: it has the length
    of the input, and at each position it holds the unit of the input there,
    either unchanged, or as its uppercase or lowercase letter, or as its
    subscript glyph.  No unit is added, dropped or moved. *)
Theorem candidate_renders_input (s cand : jsstring) :
  In cand (enumerate s) ->
  length cand = length s /\ Forall2 renders s cand.
Proof.
  intros Hin. pose proof (enumerate_renders _ _ Hin) as H.
  split; [|exact H]. symmetry. eapply Forall2_length; eauto.
Qed.

Lemma candidate_renders_input_witness :
  In (str "CaCO" ++ [0x2083]) (enumerate (str "caco3"))
  /\ length (str "CaCO" ++ [0x2083]) = length (str "caco3").
Proof.
  assert (Hin : In (str "CaCO" ++ [0x2083]) (enumerate (str "caco3")))
    by (vm_compute; tauto).
  split; [exact Hin|].
  apply (candidate_renders_input (str "caco3") (str "CaCO" ++ [0x2083]) Hin).
Defined.

(** ** How many candidates *)

Lemma ambiguousHead_letter c rest :
  isAlpha c = false -> ambiguousHead (c :: rest) = false.
Proof.
  intros Ha. destruct rest as [|c1 rest]; [reflexivity|].
  simpl. unfold element. now rewrite Ha.
Qed.

Lemma ambiguities_afterDigits s : ambiguities (afterDigits s) = ambiguities s.
Proof.
  unfold afterDigits. induction s as [|c rest IH]; [reflexivity|].
  cbn [digitRun]. destruct (isDigit c) eqn:Hd; [|reflexivity].
  cbn [length skipn ambiguities]. rewrite IH.
  now rewrite ambiguousHead_letter by now apply isDigit_not_alpha.
Qed.

Lemma ambiguities_tail c rest :
  (ambiguities rest <= ambiguities (c :: rest))%nat.
Proof. cbn [ambiguities]. lia. Qed.

Lemma enumerate_count_bound s :
  (length (enumerate s) <= 2 ^ ambiguities s)%nat.
Proof.
  induction s as [s IH] using string_induction.
  destruct (shape_cases s) as [|c rest Ha|c rest Ha Hamb|c c1 rest1 He].
  - rewrite enumerate_nil. simpl. lia.
  - rewrite (enumerate_literal _ _ Ha), length_map.
    cbn [ambiguities]. rewrite (ambiguousHead_letter _ _ Ha).
    apply IH. simpl. lia.
  - rewrite (enumerate_single _ _ Ha Hamb), length_map.
    cbn [ambiguities]. rewrite Hamb, <- ambiguities_afterDigits.
    apply IH. pose proof (afterDigits_length rest). simpl. lia.
  - rewrite (enumerate_pair _ _ _ He), length_app, !length_map.
    assert (H1 : (length (enumerate (afterDigits rest1))
                  <= 2 ^ ambiguities (c1 :: rest1))%nat).
    { etransitivity.
      - apply IH. pose proof (afterDigits_length rest1). simpl. lia.
      - rewrite ambiguities_afterDigits.
        apply Nat.pow_le_mono_r; [lia | apply ambiguities_tail]. }
    assert (H2 : (length (enumerate (c1 :: rest1))
                  <= 2 ^ ambiguities (c1 :: rest1))%nat)
      by (apply IH; simpl; lia).
    change (ambiguities (c :: c1 :: rest1))
      with ((if element c c1 then 1 else 0) + ambiguities (c1 :: rest1))%nat.
    rewrite He, Nat.pow_add_r. change (2 ^ 1)%nat with 2%nat.
    clear IH. set (m := (2 ^ ambiguities (c1 :: rest1))%nat) in *.
    clearbody m. unfold jsstring in *. lia.
Qed.

Lemma enumerate_count_ambiguous s :
  (0 < ambiguities s)%nat -> (2 <= length (enumerate s))%nat.
Proof.
  induction s as [s IH] using string_induction. intros Hpos.
  destruct (shape_cases s) as [|c rest Ha|c rest Ha Hamb|c c1 rest1 He].
  - simpl in Hpos. lia.
  - rewrite (enumerate_literal _ _ Ha), length_map.
    cbn [ambiguities] in Hpos. rewrite (ambiguousHead_letter _ _ Ha) in Hpos.
    apply IH; [simpl; lia | exact Hpos].
  - rewrite (enumerate_single _ _ Ha Hamb), length_map.
    cbn [ambiguities] in Hpos. rewrite Hamb in Hpos.
    apply IH.
    + pose proof (afterDigits_length rest). simpl. lia.
    + now rewrite ambiguities_afterDigits.
  - rewrite (enumerate_pair _ _ _ He), length_app, !length_map.
    pose proof (getAllFormulas_nonempty (afterDigits rest1) 0) as N1.
    pose proof (getAllFormulas_nonempty (c1 :: rest1) 0) as N2.
    unfold enumerate.
    destruct (getAllFormulas (afterDigits rest1) 0); [contradiction|].
    destruct (getAllFormulas (c1 :: rest1) 0); [contradiction|].
    simpl. lia.
Qed.

(** X3. The number of candidates is at most two to the number of
    positions where two adjacent letters spell an element of the table:
    only there does the enumeration branch. *)
Theorem candidates_at_most_doubling :
  forall s : jsstring, (length (enumerate s) <= 2 ^ ambiguities s)%nat.
Proof. intros s. apply enumerate_count_bound. Qed.

(** X4. There is exactly one candidate if and only if no two adjacent
    letters of the input spell an element of the table; that candidate is
    then what [formatFormula] returns. *)
Theorem single_candidate_iff_unambiguous :
  forall s : jsstring,
    (length (enumerate s) = 1%nat <-> ambiguities s = 0%nat)
    /\ (ambiguities s = 0%nat -> enumerate s = [ formatFormula s ]).
Proof.
  intros s.
  assert (Hone : ambiguities s = 0%nat -> length (enumerate s) = 1%nat).
  { intros H0. pose proof (enumerate_count_bound s) as Hb.
    rewrite H0 in Hb. simpl in Hb.
    pose proof (getAllFormulas_nonempty s 0) as Hne. unfold enumerate in *.
    destruct (getAllFormulas s 0); [contradiction | simpl in *; lia]. }
  split; [split; [|exact Hone]|].
  - intros H1. destruct (ambiguities s) eqn:E; [reflexivity|].
    pose proof (enumerate_count_ambiguous s) as H2. rewrite E in H2.
    specialize (H2 ltac:(lia)). lia.
  - intros H0. specialize (Hone H0).
    unfold formatFormula. rewrite formatLoop_first_candidate. simpl.
    unfold enumerate in *.
    destruct (getAllFormulas s 0) as [|x [|y l]]; try discriminate.
    reflexivity.
Qed.

Lemma single_candidate_iff_unambiguous_witness :
  ambiguities (str "h2so4") = 0%nat
  /\ enumerate (str "h2so4") = [ formatFormula (str "h2so4") ].
Proof.
  split; [reflexivity|].
  apply (single_candidate_iff_unambiguous (str "h2so4")). reflexivity.
Defined.


(** ** Growth without a cap *)

Lemma repeat_co_no_digit n :
  digitRun (repeatString (str "co") n) = []
  /\ afterDigits (repeatString (str "co") n) = repeatString (str "co") n.
Proof.
  apply digitRun_no_digit. destruct n; [exact I | reflexivity].
Qed.

Lemma enumerate_repeat_co n :
  enumerate (repeatString (str "co") (S n))
  = map (fun y => str "Co" ++ y) (enumerate (repeatString (str "co") n))
    ++ map (fun y => str "CO" ++ y) (enumerate (repeatString (str "co") n)).
Proof.
  change (repeatString (str "co") (S n))
    with (99 :: 111 :: repeatString (str "co") n).
  rewrite (enumerate_pair 99 111) by reflexivity.
  rewrite (enumerate_single 111)
    by (try reflexivity; destruct n; reflexivity).
  destruct (repeat_co_no_digit n) as [-> ->].
  rewrite map_map. reflexivity.
Qed.

(** X5. The growth is real and uncapped: [n] copies of "co" in a row
    have [n] ambiguous positions and exactly two to the [n] candidates, each
    candidate of the shorter input once behind "Co" and once behind "CO". *)
Theorem candidates_of_repeated_co :
  forall n : nat,
    length (enumerate (repeatString (str "co") n)) = (2 ^ n)%nat
    /\ ambiguities (repeatString (str "co") n) = n
    /\ enumerate (repeatString (str "co") (S n))
       = map (fun y => str "Co" ++ y) (enumerate (repeatString (str "co") n))
         ++ map (fun y => str "CO" ++ y)
                (enumerate (repeatString (str "co") n)).
Proof.
  intros n. split; [|split; [|apply enumerate_repeat_co]].
  - induction n as [|n IH]; [reflexivity|].
    rewrite enumerate_repeat_co, length_app, !length_map.
    unfold jsstring in *. rewrite IH. simpl. lia.
  - induction n as [|n IH]; [reflexivity|].
    change (repeatString (str "co") (S n))
      with (99 :: 111 :: repeatString (str "co") n).
    cbn [ambiguities]. rewrite IH.
    change (ambiguousHead (99 :: 111 :: repeatString (str "co") n))
      with (element 99 111).
    replace (element 99 111) with true by reflexivity.
    replace (ambiguousHead (111 :: repeatString (str "co") n)) with false
      by (destruct n; reflexivity).
    reflexivity.
Qed.

(** ** Separators *)

Lemma digitRun_before_separator s sep b :
  isDigit sep = false ->
  digitRun (s ++ sep :: b) = digitRun s
  /\ afterDigits (s ++ sep :: b) = afterDigits s ++ sep :: b.
Proof.
  intros Hd. unfold afterDigits. induction s as [|c s [IH1 IH2]].
  - simpl. now rewrite Hd.
  - cbn [app digitRun]. destruct (isDigit c); [|now split].
    rewrite IH1 in *. split; [reflexivity|]. cbn [length skipn]. exact IH2.
Qed.

Lemma ambiguousHead_before_separator c rest sep b :
  isAlpha sep = false ->
  ambiguousHead ((c :: rest) ++ sep :: b) = ambiguousHead (c :: rest).
Proof.
  intros Ha. destruct rest as [|c1 rest1]; [|reflexivity].
  simpl. unfold element. rewrite Ha. now rewrite andb_false_r.
Qed.

Section Separator.

Variable sep : Z.
Variable b : jsstring.

(** Each candidate of the left part, then the separator, then each
    candidate of the right part. *)
Definition joined (left : list jsstring) : list jsstring :=
  flat_map (fun x => map (fun y => x ++ sep :: y) (enumerate b)) left.

Lemma joined_prefixed (g : jsstring -> jsstring) (p : jsstring) left :
  (forall x, g x = p ++ x) -> joined (map g left) = map g (joined left).
Proof.
  intros Hg. unfold joined. induction left as [|x left IH]; [reflexivity|].
  cbn [map flat_map]. rewrite map_app, map_map, IH. f_equal.
  apply map_ext. intros y. now rewrite !Hg, app_assoc.
Qed.

Hypothesis sep_no_letter : isAlpha sep = false.
Hypothesis sep_no_digit : isDigit sep = false.

Lemma enumerate_separated a :
  enumerate (a ++ sep :: b) = joined (enumerate a).
Proof.
  pattern a. apply string_induction. clear a. intros a IH.
  destruct (shape_cases a) as [|c rest Ha|c rest Ha Hamb|c c1 rest1 He].
  - rewrite enumerate_nil. cbn [app]. unfold joined. cbn [flat_map].
    rewrite app_nil_r. now apply enumerate_literal.
  - cbn [app]. rewrite !(enumerate_literal _ _ Ha), IH by (simpl; lia).
    symmetry. now apply (joined_prefixed _ [c]).
  - rewrite (enumerate_single c rest Ha Hamb).
    change ((c :: rest) ++ sep :: b) with (c :: (rest ++ sep :: b)).
    rewrite (enumerate_single c (rest ++ sep :: b) Ha)
      by (change (c :: rest ++ sep :: b) with ((c :: rest) ++ sep :: b);
          now rewrite ambiguousHead_before_separator).
    destruct (digitRun_before_separator rest sep b sep_no_digit) as [-> ->].
    rewrite IH by (pose proof (afterDigits_length rest); simpl; lia).
    symmetry.
    apply (joined_prefixed _ (toUpperCase [c] ++ subscriptOf (digitRun rest))).
    intros x. now rewrite app_assoc.
  - rewrite (enumerate_pair c c1 rest1 He).
    change ((c :: c1 :: rest1) ++ sep :: b)
      with (c :: c1 :: (rest1 ++ sep :: b)).
    rewrite (enumerate_pair c c1 (rest1 ++ sep :: b) He).
    destruct (digitRun_before_separator rest1 sep b sep_no_digit) as [-> ->].
    rewrite IH by (pose proof (afterDigits_length rest1); simpl; lia).
    change (c1 :: rest1 ++ sep :: b) with ((c1 :: rest1) ++ sep :: b).
    rewrite IH by (simpl; lia).
    unfold joined at 3. rewrite flat_map_app. fold (joined). symmetry.
    f_equal.
    + apply (joined_prefixed _
               ((toUpperCase [c] ++ toLowerCase [c1])
                  ++ subscriptOf (digitRun rest1))).
      intros x. now rewrite app_assoc.
    + now apply (joined_prefixed _ (toUpperCase [c])).
Qed.

End Separator.

(** X6. Parts of the input that a separator divides are enumerated
    independently: for a separator that is neither a letter nor a digit,
    the candidates of [a ++ sep ++ b] are every candidate of [a], in order,
    each followed by the separator and by every candidate of [b], in
    order. *)
Theorem enumerate_across_separator (a b : jsstring) (sep : Z) :
  isAlpha sep = false -> isDigit sep = false ->
  enumerate (a ++ sep :: b)
  = flat_map (fun x => map (fun y => x ++ sep :: y) (enumerate b))
             (enumerate a).
Proof.
  intros Ha Hd. now apply enumerate_separated.
Qed.

Lemma enumerate_across_separator_witness :
  enumerate (str "co+h2o")
  = flat_map (fun x => map (fun y => x ++ 43 :: y) (enumerate (str "h2o")))
             (enumerate (str "co")).
Proof.
  apply (enumerate_across_separator (str "co") (str "h2o") 43); reflexivity.
Defined.


(** ** Formatting what is already formatted *)

Lemma renders_isAlpha c x : renders c x -> isAlpha x = isAlpha c.
Proof.
  unfold renders, subscriptUnit, isDigit.
  intros [ -> | [ -> | [ -> | -> ] ] ]; letter_cases.
Qed.

Lemma renders_no_digit c x : renders c x -> isDigit c = false -> isDigit x = false.
Proof.
  unfold renders, subscriptUnit. intros [ -> | [ -> | [ -> | -> ] ] ] Hd;
    rewrite ?Hd; try exact Hd; unfold isDigit in *; letter_cases.
Qed.

Lemma renders_upper c x :
  renders c x -> isAlpha c = true -> asciiUpper x = asciiUpper c.
Proof.
  unfold renders, subscriptUnit, isDigit.
  intros [ -> | [ -> | [ -> | -> ] ] ] Ha; letter_cases.
Qed.

Lemma renders_lower c x :
  renders c x -> isAlpha c = true -> asciiLower x = asciiLower c.
Proof.
  unfold renders, subscriptUnit, isDigit.
  intros [ -> | [ -> | [ -> | -> ] ] ] Ha; letter_cases.
Qed.

(** A candidate spells the same elements as the input. *)
Lemma element_renders c c1 x x1 :
  renders c x -> renders c1 x1 -> element x x1 = element c c1.
Proof.
  intros R R1. unfold element.
  rewrite (renders_isAlpha _ _ R), (renders_isAlpha _ _ R1).
  destruct (isAlpha c) eqn:Ha; [|reflexivity].
  destruct (isAlpha c1) eqn:Ha1; [|reflexivity]. cbn [andb].
  rewrite (toUpperCase_letter x), (toLowerCase_letter x1)
    by (now rewrite (renders_isAlpha _ _ R) || now rewrite (renders_isAlpha _ _ R1)).
  rewrite (toUpperCase_letter c), (toLowerCase_letter c1) by assumption.
  now rewrite (renders_upper _ _ R Ha), (renders_lower _ _ R1 Ha1).
Qed.

Lemma ambiguousHead_renders s o :
  Forall2 renders s o -> ambiguousHead o = ambiguousHead s.
Proof.
  intros H. destruct H as [|c x s o R H]; [reflexivity|].
  destruct H as [|c1 x1 s o R1 H]; [reflexivity|].
  now apply element_renders.
Qed.

Lemma digitRun_digits s : Forall (fun d => isDigit d = true) (digitRun s).
Proof.
  induction s as [|c s IH]; [constructor|].
  simpl. destruct (isDigit c) eqn:Hd; constructor; assumption.
Qed.

Lemma subscripts_literal s :
  Forall (fun x => isAlpha x = false /\ isDigit x = false)
         (subscriptOf (digitRun s)).
Proof.
  rewrite subscriptOf_map. apply Forall_map.
  eapply Forall_impl; [|apply digitRun_digits].
  intros d Hd. split; [|apply subscriptUnit_not_digit].
  unfold subscriptUnit. rewrite Hd. unfold isDigit in Hd. letter_cases.
Qed.

Lemma enumerate_literals lits y :
  Forall (fun x => isAlpha x = false /\ isDigit x = false) lits ->
  enumerate (lits ++ y) = map (fun z => lits ++ z) (enumerate y).
Proof.
  induction 1 as [|x lits [Ha _] _ IH].
  - cbn [app]. now rewrite map_id.
  - cbn [app]. rewrite (enumerate_literal _ _ Ha), IH, map_map. reflexivity.
Qed.

Lemma digitRun_renders r y :
  Forall2 renders r y -> digitRun r = [] ->
  digitRun y = [] /\ afterDigits y = y.
Proof.
  intros H Hr. apply digitRun_no_digit.
  destruct H as [|c x r y R H]; [exact I|].
  apply (renders_no_digit _ _ R).
  simpl in Hr. destruct (isDigit c); [discriminate | reflexivity].
Qed.

(** Behind an element of a candidate: its subscripts and what follows are
    read as literals and as the candidate of the remainder. *)
Lemma behind_element r y :
  In y (enumerate (afterDigits r)) ->
  let behind := subscriptOf (digitRun r) ++ y in
  digitRun behind = []
  /\ afterDigits behind = behind
  /\ enumerate behind
     = map (fun z => subscriptOf (digitRun r) ++ z) (enumerate y).
Proof.
  intros Hy behind.
  assert (E : enumerate behind
              = map (fun z => subscriptOf (digitRun r) ++ z) (enumerate y))
    by apply enumerate_literals, subscripts_literal.
  pose proof (subscripts_literal r) as Hlit.
  subst behind. destruct (subscriptOf (digitRun r)) as [|g glyphs] eqn:Eg.
  - cbn [app] in *.
    assert (Hr : digitRun r = []).
    { destruct (digitRun r); [reflexivity|].
      rewrite subscriptOf_map in Eg. discriminate. }
    assert (Hr' : afterDigits r = r) by (unfold afterDigits; now rewrite Hr).
    rewrite Hr' in Hy.
    destruct (digitRun_renders r y (enumerate_renders _ _ Hy) Hr) as [-> ->].
    now repeat split.
  - inversion Hlit as [|? ? [_ Hg] _]; subst.
    destruct (digitRun_no_digit ((g :: glyphs) ++ y) Hg) as [-> ->].
    now repeat split.
Qed.

Lemma one_letter_candidates_in c rest z :
  isAlpha c = true ->
  In z (map (fun y => toUpperCase [c] ++ subscriptOf (digitRun rest) ++ y)
            (enumerate (afterDigits rest))) ->
  In z (enumerate (c :: rest)).
Proof.
  intros Ha Hz. unfold enumerate at 1.
  rewrite (getAllFormulas_letter (c :: rest) 0 c eq_refl Ha).
  apply in_or_app. right. now rewrite oneLetterCandidates_head.
Qed.

Lemma asciiUpper_letter c :
  isAlpha c = true ->
  isAlpha (asciiUpper c) = true
  /\ toUpperCase [asciiUpper c] = [asciiUpper c].
Proof.
  intros Ha.
  assert (Hu : isAlpha (asciiUpper c) = true) by letter_cases.
  split; [exact Hu|]. rewrite (toUpperCase_letter _ Hu). f_equal.
  letter_cases.
Qed.

Lemma asciiLower_letter c :
  isAlpha c = true ->
  isAlpha (asciiLower c) = true
  /\ toLowerCase [asciiLower c] = [asciiLower c].
Proof.
  intros Ha.
  assert (Hl : isAlpha (asciiLower c) = true) by letter_cases.
  split; [exact Hl|]. rewrite (toLowerCase_letter _ Hl). f_equal.
  letter_cases.
Qed.


Lemma candidate_of_itself :
  forall s cand, In cand (enumerate s) -> In cand (enumerate cand).
Proof.
  induction s as [s IH] using string_induction. intros cand Hin.
  destruct (shape_cases s) as [|c rest Ha|c rest Ha Hamb|c c1 rest1 He].
  - destruct Hin as [<-|[]]. now left.
  - rewrite (enumerate_literal _ _ Ha) in Hin.
    apply in_map_iff in Hin. destruct Hin as (y & <- & Hy).
    rewrite (enumerate_literal _ _ Ha). apply in_map.
    apply (IH rest); [simpl; lia | exact Hy].
  - rewrite (enumerate_single _ _ Ha Hamb) in Hin.
    apply in_map_iff in Hin. destruct Hin as (y & <- & Hy).
    rewrite (toUpperCase_letter _ Ha). cbn [app].
    destruct (asciiUpper_letter _ Ha) as [Hu Eu].
    destruct (behind_element rest y Hy) as (Hrun & Hafter & Hbehind).
    apply (one_letter_candidates_in _ _ _ Hu).
    rewrite Eu, Hrun, Hafter, Hbehind, map_map.
    apply in_map_iff. exists y. split; [reflexivity|].
    apply (IH (afterDigits rest)); [|exact Hy].
    pose proof (afterDigits_length rest). simpl. lia.
  - pose proof He as He'. unfold element in He'.
    apply andb_prop in He'. destruct He' as [He' Hh].
    apply andb_prop in He'. destruct He' as [Ha Ha1].
    rewrite (enumerate_pair _ _ _ He) in Hin.
    rewrite (toUpperCase_letter _ Ha), (toLowerCase_letter _ Ha1) in Hin.
    destruct (asciiUpper_letter _ Ha) as [Hu Eu].
    destruct (asciiLower_letter _ Ha1) as [Hl El].
    apply in_app_or in Hin. destruct Hin as [Hin|Hin];
      apply in_map_iff in Hin; destruct Hin as (y & <- & Hy); cbn [app].
    + destruct (behind_element rest1 y Hy) as (Hrun & Hafter & Hbehind).
      assert (He2 : element (asciiUpper c) (asciiLower c1) = true).
      { unfold element. rewrite Hu, Hl, Eu, El. cbn [andb].
        now rewrite <- (toUpperCase_letter _ Ha), <- (toLowerCase_letter _ Ha1). }
      rewrite (enumerate_pair _ _ _ He2). apply in_or_app. left.
      rewrite Eu, El, Hrun, Hafter, Hbehind, map_map.
      apply in_map_iff. exists y. split; [reflexivity|].
      apply (IH (afterDigits rest1)); [|exact Hy].
      pose proof (afterDigits_length rest1). simpl. lia.
    + apply (one_letter_candidates_in _ _ _ Hu).
      destruct (digitRun_renders (c1 :: rest1) y (enumerate_renders _ _ Hy))
        as [-> ->].
      { simpl. now rewrite (isAlpha_not_digit _ Ha1). }
      rewrite Eu. apply in_map_iff. exists y. split; [reflexivity|].
      apply (IH (c1 :: rest1)); [simpl; lia | exact Hy].
Qed.

(** X7. A candidate is a candidate of itself: giving a candidate back to
    [enumerate] yields a list that holds it again.  What was copied can be
    entered again without losing it. *)
Theorem candidates_are_stable (s cand : jsstring) :
  In cand (enumerate s) -> In cand (enumerate cand).
Proof. intros Hin. now apply (candidate_of_itself s). Qed.

Lemma candidates_are_stable_witness :
  In (str "CO" ++ [0x2082]) (enumerate (str "co2"))
  /\ In (str "CO" ++ [0x2082]) (enumerate (str "CO" ++ [0x2082])).
Proof.
  assert (Hin : In (str "CO" ++ [0x2082]) (enumerate (str "co2")))
    by (vm_compute; tauto).
  split; [exact Hin|].
  exact (candidates_are_stable (str "co2") (str "CO" ++ [0x2082]) Hin).
Defined.

(** The first candidate, which is what [formatFormula] returns. *)
Lemma formatFormula_head s : formatFormula s = hd [] (enumerate s).
Proof.
  unfold formatFormula. now rewrite formatLoop_first_candidate.
Qed.

Lemma formatFormula_in s : In (formatFormula s) (enumerate s).
Proof.
  rewrite formatFormula_head.
  pose proof (getAllFormulas_nonempty s 0) as Hne. unfold enumerate.
  destruct (getAllFormulas s 0); [contradiction | now left].
Qed.

Lemma head_of_prefixed (g : jsstring -> jsstring) s (others : list jsstring) :
  hd [] (map g (enumerate s) ++ others) = g (hd [] (enumerate s)).
Proof.
  pose proof (getAllFormulas_nonempty s 0) as Hne. unfold enumerate.
  destruct (getAllFormulas s 0); [contradiction | reflexivity].
Qed.

Lemma formatFormula_fixed :
  forall s, formatFormula (formatFormula s) = formatFormula s.
Proof.
  induction s as [s IH] using string_induction.
  destruct (shape_cases s) as [|c rest Ha|c rest Ha Hamb|c c1 rest1 He].
  - reflexivity.
  - assert (E : formatFormula (c :: rest) = c :: formatFormula rest).
    { rewrite !formatFormula_head, (enumerate_literal _ _ Ha).
      rewrite <- (app_nil_r (map _ _)). apply head_of_prefixed. }
    rewrite E.
    rewrite (formatFormula_head (c :: _)), (enumerate_literal _ _ Ha).
    rewrite <- (app_nil_r (map _ _)), head_of_prefixed.
    rewrite <- formatFormula_head, IH by (simpl; lia). reflexivity.
  - pose proof (formatFormula_in (afterDigits rest)) as Hy.
    destruct (asciiUpper_letter _ Ha) as [Hu Eu].
    destruct (behind_element rest _ Hy) as (Hrun & Hafter & Hbehind).
    assert (E : formatFormula (c :: rest)
                = asciiUpper c
                    :: subscriptOf (digitRun rest)
                    ++ formatFormula (afterDigits rest)).
    { rewrite !formatFormula_head, (enumerate_single _ _ Ha Hamb).
      rewrite <- (app_nil_r (map _ _)), head_of_prefixed.
      now rewrite (toUpperCase_letter _ Ha). }
    assert (Hamb' : ambiguousHead (formatFormula (c :: rest)) = false).
    { rewrite <- Hamb. apply ambiguousHead_renders, enumerate_renders.
      apply formatFormula_in. }
    rewrite (formatFormula_head (formatFormula _)).
    rewrite E in Hamb' |- *.
    rewrite (enumerate_single _ _ Hu Hamb').
    rewrite <- (app_nil_r (map _ _)), head_of_prefixed.
    rewrite Eu, Hrun, Hafter, Hbehind. cbn [subscriptOf app].
    rewrite <- (app_nil_r (map _ _)), head_of_prefixed.
    rewrite <- formatFormula_head, IH; [reflexivity|].
    pose proof (afterDigits_length rest). simpl. lia.
  - pose proof He as He'. unfold element in He'.
    apply andb_prop in He'. destruct He' as [He' Hh].
    apply andb_prop in He'. destruct He' as [Ha Ha1].
    pose proof (formatFormula_in (afterDigits rest1)) as Hy.
    destruct (asciiUpper_letter _ Ha) as [Hu Eu].
    destruct (asciiLower_letter _ Ha1) as [Hl El].
    destruct (behind_element rest1 _ Hy) as (Hrun & Hafter & Hbehind).
    assert (E : formatFormula (c :: c1 :: rest1)
                = asciiUpper c :: asciiLower c1
                    :: subscriptOf (digitRun rest1)
                    ++ formatFormula (afterDigits rest1)).
    { rewrite !formatFormula_head, (enumerate_pair _ _ _ He).
      rewrite head_of_prefixed.
      now rewrite (toUpperCase_letter _ Ha), (toLowerCase_letter _ Ha1). }
    assert (He2 : element (asciiUpper c) (asciiLower c1) = true).
    { unfold element. rewrite Hu, Hl, Eu, El. cbn [andb].
      now rewrite <- (toUpperCase_letter _ Ha), <- (toLowerCase_letter _ Ha1). }
    rewrite (formatFormula_head (formatFormula _)), E.
    rewrite (enumerate_pair _ _ _ He2), head_of_prefixed.
    rewrite Eu, El, Hrun, Hafter, Hbehind. cbn [subscriptOf app].
    rewrite <- (app_nil_r (map _ _)), head_of_prefixed.
    rewrite <- formatFormula_head, IH; [reflexivity|].
    pose proof (afterDigits_length rest1). simpl. lia.
Qed.

(** X8. [formatFormula] is idempotent and keeps the length of its input:
    formatting a formatted formula returns it as it is. *)
Theorem formatFormula_idempotent :
  forall s : jsstring,
    formatFormula (formatFormula s) = formatFormula s
    /\ length (formatFormula s) = length s.
Proof.
  intros s. split; [apply formatFormula_fixed|].
  symmetry. eapply Forall2_length, enumerate_renders, formatFormula_in.
Qed.


(** * Properties of the page *)

(** ** [trim] *)

Lemma trimStart_idempotent s : trimStart (trimStart s) = trimStart s.
Proof.
  induction s as [|c s IH]; [reflexivity|].
  simpl. destruct (isWhiteSpace c) eqn:Hc; [exact IH|].
  simpl. now rewrite Hc.
Qed.

Lemma trimStart_head s :
  match trimStart s with
  | c :: _ => isWhiteSpace c = false
  | [] => True
  end.
Proof.
  induction s as [|c s IH]; [exact I|].
  simpl. destruct (isWhiteSpace c) eqn:Hc; [exact IH | exact Hc].
Qed.

Lemma trimStart_fixed c s :
  isWhiteSpace c = false -> trimStart (c :: s) = c :: s.
Proof. intros Hc. simpl. now rewrite Hc. Qed.

Lemma trimEnd_snoc s c :
  trimEnd (s ++ [c]) = if isWhiteSpace c then trimEnd s else s ++ [c].
Proof.
  unfold trimEnd. rewrite rev_app_distr. simpl.
  destruct (isWhiteSpace c); [reflexivity|].
  simpl. now rewrite rev_involutive.
Qed.

Lemma trimEnd_keeps_head c s :
  isWhiteSpace c = false -> exists s', trimEnd (c :: s) = c :: s'.
Proof.
  intros Hc. induction s as [|x s IH] using rev_ind.
  - exists []. unfold trimEnd. simpl. now rewrite Hc.
  - rewrite app_comm_cons, trimEnd_snoc.
    destruct (isWhiteSpace x); [exact IH | now exists (s ++ [x])].
Qed.

Lemma trimEnd_idempotent s : trimEnd (trimEnd s) = trimEnd s.
Proof.
  unfold trimEnd. now rewrite rev_involutive, trimStart_idempotent.
Qed.

Lemma trim_idempotent s : trim (trim s) = trim s.
Proof.
  unfold trim. pose proof (trimStart_head s) as Hh.
  destruct (trimStart s) as [|c t]; [reflexivity|].
  destruct (trimEnd_keeps_head c t Hh) as (t' & E).
  rewrite E, (trimStart_fixed _ _ Hh), <- E. apply trimEnd_idempotent.
Qed.

(** ** What every event keeps *)

Lemma entryOk_trimmed value formula :
  trim value <> [] -> In formula (enumerate (trim value)) ->
  entryOk (trim value) formula.
Proof.
  intros Hne Hin. repeat split; [exact Hin | exact Hne | apply trim_idempotent].
Qed.

Lemma Forall_removeNth {A} (P : A -> Prop) n (l : list A) :
  Forall P l -> Forall P (removeNth n l).
Proof.
  intros H. revert n. induction H as [|x l Hx Hl IH]; intros n.
  - destruct n; constructor.
  - destruct n; simpl; [exact Hl | constructor; auto].
Qed.

Lemma Forall_nth_error {A} (P : A -> Prop) n (l : list A) x :
  Forall P l -> nth_error l n = Some x -> P x.
Proof.
  intros H E. rewrite Forall_forall in H. apply H.
  eapply nth_error_In; eauto.
Qed.

Lemma Forall_removelast {A} (P : A -> Prop) (l : list A) :
  Forall P l -> Forall P (removelast l).
Proof.
  induction 1 as [|x l Hx Hl IH]; [constructor|].
  simpl. destruct l; [constructor | now constructor].
Qed.

(** [copyFormula] keeps the history bounded and well-formed, given an
    entry that is. *)
Lemma copyFormula_keeps w orig formula (p : Page) :
  entryOk orig formula ->
  (length (history p) <= 5)%nat ->
  Forall (fun e => entryOk (original e) (formatted e)) (history p) ->
  (length (history (copyFormula w orig formula p)) <= 5)%nat
  /\ Forall (fun e => entryOk (original e) (formatted e))
            (history (copyFormula w orig formula p)).
Proof.
  intros Hok Hb Hh. destruct w; [|now split].
  rewrite copyFormula_resolved_history. split.
  - cbn [length]. destruct (Nat.leb_spec 5 (length (history p))); [|lia].
    rewrite removelast_length. lia.
  - constructor; [exact Hok|].
    destruct (5 <=? length (history p))%nat;
      [now apply Forall_removelast | exact Hh].
Qed.

Lemma launch_keeps r s :
  invariant {| current := fst r; inflight := inflight s |} ->
  match snd r with
  | Some k => continuationOk k
  | None => True
  end ->
  invariant (launch r s).
Proof.
  intros [Hb Hh Hp Hi] Hk. unfold launch.
  constructor; cbn [current inflight] in *; try assumption.
  destruct (snd r) as [k|]; [|exact Hi].
  apply Forall_app. split; [exact Hi | now constructor].
Qed.

Lemma textInputKeypress_keeps key s :
  invariant s -> invariant (launch (textInputKeypress key (current s)) s).
Proof.
  intros Hs. destruct Hs as [Hb Hh Hp Hi].
  unfold textInputKeypress.
  destruct (jsstring_eqb key (str "Enter"));
    [|apply launch_keeps; [now constructor | exact I]].
  destruct (trim (textInput (current s))) as [|c t] eqn:Et.
  - apply launch_keeps; [now constructor | exact I].
  - assert (Hne : trim (textInput (current s)) <> [])
      by (rewrite Et; discriminate).
    assert (Hall : Forall (entryOk (c :: t)) (getAllFormulas (c :: t) 0)).
    { rewrite <- Et. apply Forall_forall. intros f Hf.
      now apply entryOk_trimmed. }
    cbv zeta.
    destruct (Nat.eqb_spec (length (getAllFormulas (c :: t) 0)) 1) as [E1|N1].
    + apply launch_keeps; [now constructor|]. cbn [snd continuationOk].
      destruct (getAllFormulas (c :: t) 0) as [|f [|f' l]]; try discriminate.
      now inversion Hall.
    + destruct (1 <? length (getAllFormulas (c :: t) 0))%nat;
        (apply launch_keeps; [now constructor | exact I]).
Qed.

Lemma documentKeypress_keeps key s :
  invariant s -> invariant (launch (documentKeypress key (current s)) s).
Proof.
  intros Hs. pose proof Hs as [Hb Hh Hp Hi].
  unfold documentKeypress.
  destruct (negb (modalShown (current s)));
    [apply launch_keeps; [now destruct s | exact I]|].
  destruct (parseInt key) as [num|];
    [|apply launch_keeps; [now destruct s | exact I]].
  destruct ((1 <=? num) && (num <=? 9)
            && (num <=? Z.of_nat (length (pendingFormulas (current s)))))
    eqn:Hguard; [|apply launch_keeps; [now destruct s | exact I]].
  apply launch_keeps; [now destruct s|]. cbn [snd continuationOk].
  rewrite Forall_forall in Hp. apply Hp, nth_In. lia.
Qed.

Lemma resume_keeps w k (a : App) :
  continuationOk k ->
  (length (history (page a)) <= 5)%nat ->
  Forall (fun e => entryOk (original e) (formatted e)) (history (page a)) ->
  (length (history (page (resume w k a))) <= 5)%nat
  /\ Forall (fun e => entryOk (original e) (formatted e))
            (history (page (resume w k a)))
  /\ pendingFormulas (resume w k a) = pendingFormulas a
  /\ pendingOriginal (resume w k a) = pendingOriginal a.
Proof.
  intros Hk Hb Hh.
  destruct k as [orig formula|orig formula|text]; cbn [resume].
  - destruct (copyFormula_keeps w orig formula (page a) Hk Hb Hh).
    now repeat split.
  - destruct (copyFormula_keeps w orig formula (page a) Hk Hb Hh).
    now repeat split.
  - destruct w; now repeat split.
Qed.

Lemma react_keeps e s : invariant s -> invariant (react e s).
Proof.
  intros Hs. destruct e as [value|key|key|key|index|n w]; cbn [react].
  - destruct Hs. now constructor.
  - now apply textInputKeypress_keeps.
  - now apply documentKeypress_keeps.
  - destruct Hs as [Hb Hh Hp Hi]. unfold documentKeydown.
    destruct (jsstring_eqb key (str "Escape") && modalShown (current s));
      now constructor.
  - unfold copyButtonClick.
    destruct (nth_error (history (page (current s))) index);
      (apply launch_keeps; [now destruct s | exact I]).
  - destruct (nth_error (inflight s) n) as [k|] eqn:Ek; [|exact Hs].
    destruct Hs as [Hb Hh Hp Hi].
    pose proof (Forall_nth_error _ _ _ _ Hi Ek) as Hk.
    destruct (resume_keeps w k (current s) Hk Hb Hh) as (Hb' & Hh' & Ep & Eo).
    constructor; cbn [current inflight]; try assumption.
    + now rewrite Ep, Eo.
    + now apply Forall_removeNth.
Qed.

Lemma run_keeps events : invariant (run events).
Proof.
  unfold run.
  assert (H0 : invariant initialSystem) by (constructor; simpl; auto; lia).
  revert H0. generalize initialSystem.
  induction events as [|e events IH]; intros s Hs; [exact Hs|].
  simpl. apply IH. now apply react_keeps.
Qed.

(** X9. Whatever the user does, and in whatever order the pending
    clipboard writes settle, the history holds at most five entries, and
    each entry pairs a query, trimmed and not empty, with one of the
    candidates of that query. *)
Theorem history_holds_candidates :
  forall events : list Event,
    let entries := history (page (current (run events))) in
    (length entries <= 5)%nat
    /\ Forall (fun e =>
                 In (formatted e) (enumerate (original e))
                 /\ original e <> []
                 /\ trim (original e) = original e)
              entries.
Proof.
  intros events. destruct (run_keeps events) as [Hb Hh _ _].
  split; [exact Hb | exact Hh].
Qed.


(** X10. Only a resolved write started by Enter or by a selection changes
    the history, and it puts exactly its own entry in front (dropping the
    last entry when there were five or more).  Editing, key presses,
    Escape, the copy buttons of the history and every rejected write leave
    the history as it is. *)
Theorem history_changes_only_on_resolved_copy :
  forall (e : Event) (s : System),
    let before := history (page (current s)) in
    let after := history (page (current (react e s))) in
    let pushed original formula :=
      {| original := original; formatted := formula |}
        :: (if (5 <=? length before)%nat then removelast before else before) in
    match e with
    | WriteSettles n Resolved =>
        match nth_error (inflight s) n with
        | Some (AfterEnter original formula) => after = pushed original formula
        | Some (AfterSelection original formula) =>
            after = pushed original formula
        | Some (AfterHistoryCopy _) => after = before
        | None => after = before
        end
    | _ => after = before
    end.
Proof.
  intros e s. cbv zeta.
  destruct e as [value|key|key|key|index|n w]; cbn [react].
  - reflexivity.
  - unfold textInputKeypress, launch.
    destruct (jsstring_eqb key (str "Enter")); [|reflexivity].
    destruct (trim (textInput (current s))); [reflexivity|]. cbv zeta.
    destruct (length (getAllFormulas (z :: j) 0) =? 1)%nat; [reflexivity|].
    destruct (1 <? length (getAllFormulas (z :: j) 0))%nat; reflexivity.
  - unfold documentKeypress, launch.
    destruct (negb (modalShown (current s))); [reflexivity|].
    destruct (parseInt key) as [num|]; [|reflexivity].
    match goal with
    | |- context [if ?g then _ else _] => destruct g
    end; reflexivity.
  - unfold documentKeydown.
    destruct (jsstring_eqb key (str "Escape") && modalShown (current s));
      reflexivity.
  - unfold copyButtonClick, launch.
    destruct (nth_error (history (page (current s))) index); reflexivity.
  - destruct w.
    + destruct (nth_error (inflight s) n) as [[o f|o f|t]|];
        cbn [current resume withInput withPage hideDisambiguationModal page];
        try reflexivity; apply copyFormula_resolved_history.
    + destruct (nth_error (inflight s) n) as [[o f|o f|t]|]; reflexivity.
Qed.

(** ** Enter *)

Lemma enumerate_one_iff s :
  length (enumerate s) = 1%nat <-> ambiguities s = 0%nat.
Proof.
  split.
  - intros H1. destruct (ambiguities s) eqn:E; [reflexivity|].
    pose proof (enumerate_count_ambiguous s) as H2. rewrite E in H2.
    specialize (H2 ltac:(lia)). lia.
  - intros H0. pose proof (enumerate_count_bound s) as Hb.
    rewrite H0 in Hb. simpl in Hb.
    pose proof (getAllFormulas_nonempty s 0) as Hne. unfold enumerate in *.
    destruct (getAllFormulas s 0); [contradiction | simpl in *; lia].
Qed.

Lemma enter_decision :
  forall a : App,
    let t := trim (textInput a) in
    textInputKeypress (str "Enter") a
    = match t with
      | [] =>
          (withPage
             (showFeedback (str "Please enter some text") error (page a)) a,
           None)
      | _ :: _ =>
          if (ambiguities t =? 0)%nat then
            (withPending [formatFormula t] t a,
             Some (AfterEnter t (formatFormula t)))
          else
            (showDisambiguationModal (enumerate t)
               (withPending (enumerate t) t a),
             None)
      end.
Proof.
  intros a t. unfold textInputKeypress.
  change (jsstring_eqb (str "Enter") (str "Enter")) with true. cbv iota.
  fold t. destruct t as [|c t']; [reflexivity|]. cbv zeta.
  fold (enumerate (c :: t')).
  pose proof (enumerate_one_iff (c :: t')) as Hiff.
  pose proof (formatFormula_head (c :: t')) as Hhead.
  pose proof (getAllFormulas_nonempty (c :: t') 0) as Hne.
  fold (enumerate (c :: t')) in Hne.
  destruct (Nat.eqb_spec (ambiguities (c :: t')) 0) as [E0|N0].
  - apply Hiff in E0.
    destruct (enumerate (c :: t')) as [|f [|f' l]]; try discriminate.
    simpl in Hhead. rewrite Hhead. reflexivity.
  - destruct (Nat.eqb_spec (length (enumerate (c :: t'))) 1) as [E1|N1];
      [apply Hiff in E1; contradiction|].
    destruct (Nat.ltb_spec 1 (length (enumerate (c :: t')))) as [_|Hle];
      [reflexivity|].
    destruct (enumerate (c :: t')) as [|f [|f' l]];
      [contradiction | contradiction | simpl in Hle; lia].
Qed.

(** X11. What Enter does is decided by the trimmed text of the field.
    Empty: an error message and nothing else.  No two adjacent letters
    spelling an element: the one candidate, which is [formatFormula] of the
    text, is handed to the clipboard at once.  Otherwise: nothing is copied
    and the modal opens with all candidates, numbered from 1 in the order
    of [getAllFormulas]. *)
Theorem enter_copies_or_asks :
  forall a : App,
    let t := trim (textInput a) in
    textInputKeypress (str "Enter") a
    = match t with
      | [] =>
          (withPage
             (showFeedback (str "Please enter some text") error (page a)) a,
           None)
      | _ :: _ =>
          if (ambiguities t =? 0)%nat then
            (withPending [formatFormula t] t a,
             Some (AfterEnter t (formatFormula t)))
          else
            (showDisambiguationModal (enumerate t)
               (withPending (enumerate t) t a),
             None)
      end.
Proof. intros a. apply enter_decision. Qed.

(** ** Selecting *)

Lemma parseInt_digitKey k :
  (1 <= k <= 9)%nat -> parseInt (digitKey k) = Some (Z.of_nat k).
Proof.
  intros Hk.
  do 10 (destruct k as [|k]; [try lia; reflexivity|]). lia.
Qed.

Lemma numbered_option {A} (l : list A) start k x :
  In (k, x) (combine (seq start (length l)) l) ->
  (start <= k)%nat /\ nth_error l (k - start) = Some x.
Proof.
  revert start. induction l as [|y l IH]; intros start Hin; [contradiction|].
  cbn [length seq combine] in Hin. destruct Hin as [E|Hin].
  - injection E as <- <-. rewrite Nat.sub_diag. split; [lia | reflexivity].
  - apply IH in Hin. destruct Hin as [Hle E]. split; [lia|].
    replace (k - start)%nat with (S (k - S start)) by lia. exact E.
Qed.

Lemma enter_opens_numbered (a : App) :
  let t := trim (textInput a) in
  let opened := fst (textInputKeypress (str "Enter") a) in
  t <> [] -> ambiguities t <> 0%nat ->
  modalShown opened = true
  /\ pendingOriginal opened = t
  /\ pendingFormulas opened = enumerate t
  /\ modalOptions opened
     = combine (seq 1 (length (pendingFormulas opened)))
               (pendingFormulas opened).
Proof.
  intros t opened Hne Hamb. subst opened. rewrite enter_decision. fold t.
  destruct t as [|c t']; [contradiction|].
  destruct (Nat.eqb_spec (ambiguities (c :: t')) 0); [contradiction|].
  now repeat split.
Qed.

Lemma numbered_selects (a : App) (k : nat) (formula : jsstring) :
  modalShown a = true ->
  modalOptions a
  = combine (seq 1 (length (pendingFormulas a))) (pendingFormulas a) ->
  In (k, formula) (modalOptions a) -> (k <= 9)%nat ->
  documentKeypress (digitKey k) a
  = (a, Some (AfterSelection (pendingOriginal a) formula)).
Proof.
  intros Hshown Hopts Hin Hk. rewrite Hopts in Hin.
  apply numbered_option in Hin. destruct Hin as [H1 Hnth].
  assert (Hlt : (k - 1 < length (pendingFormulas a))%nat)
    by (apply nth_error_Some; congruence).
  unfold documentKeypress. rewrite Hshown. cbn [negb].
  rewrite parseInt_digitKey by lia.
  replace ((1 <=? Z.of_nat k) && (Z.of_nat k <=? 9)
           && (Z.of_nat k <=? Z.of_nat (length (pendingFormulas a))))
    with true by (symmetry; unfold jsstring in *; lia).
  cbv zeta. do 3 f_equal.
  replace (Z.to_nat (Z.of_nat k - 1)) with (k - 1)%nat by lia.
  now apply nth_error_nth.
Qed.

(** X12. The number given is the number to press, as long as the options
    are those of the pending list.  When Enter opens the modal it leaves
    the page in that state: the modal shown, the pending list the
    candidates of the trimmed query, the options rendered from that list
    and numbered from 1.  And in every state of that kind, pressing the
    digit key of an option's number, up to 9, hands the formula the option
    was rendered from to the clipboard, to be recorded with the pending
    query.  (A later Enter on the field replaces the pending list and
    renders nothing; that state is not of this kind.) *)
Theorem shown_number_selects :
  (forall a : App,
     let t := trim (textInput a) in
     let opened := fst (textInputKeypress (str "Enter") a) in
     t <> [] -> ambiguities t <> 0%nat ->
     modalShown opened = true
     /\ pendingOriginal opened = t
     /\ pendingFormulas opened = enumerate t
     /\ modalOptions opened
        = combine (seq 1 (length (pendingFormulas opened)))
                  (pendingFormulas opened))
  /\ (forall (a : App) (k : nat) (formula : jsstring),
        modalShown a = true ->
        modalOptions a
        = combine (seq 1 (length (pendingFormulas a))) (pendingFormulas a) ->
        In (k, formula) (modalOptions a) -> (k <= 9)%nat ->
        documentKeypress (digitKey k) a
        = (a, Some (AfterSelection (pendingOriginal a) formula))).
Proof.
  split.
  - intros a. apply enter_opens_numbered.
  - intros a k formula. apply numbered_selects.
Qed.

Lemma shown_number_selects_witness :
  documentKeypress (digitKey 2)
    (fst (textInputKeypress (str "Enter") (withInput (str " co ") initialApp)))
  = (fst (textInputKeypress (str "Enter") (withInput (str " co ") initialApp)),
     Some (AfterSelection (str "co") (str "CO"))).
Proof.
  apply (proj2 shown_number_selects
           (fst (textInputKeypress (str "Enter")
                   (withInput (str " co ") initialApp)))
           2%nat (str "CO")).
  - apply (proj1 shown_number_selects (withInput (str " co ") initialApp));
      discriminate.
  - apply (proj1 shown_number_selects (withInput (str " co ") initialApp));
      discriminate.
  - vm_compute. tauto.
  - lia.
Defined.

(** The state the property leaves out, as the model has it: with the
    modal open for "co", an Enter on the field holding "h" copies at once
    and replaces the pending list, while the modal stays with the options
    of "co"; the key 1 then starts a copy of "H". *)
Example second_enter_keeps_options :
  modalShown (current (run [UserEdits (str "co"); InputKeypress (str "Enter");
                            UserEdits (str "h"); InputKeypress (str "Enter")]))
  = true
  /\ modalOptions
       (current (run [UserEdits (str "co"); InputKeypress (str "Enter");
                      UserEdits (str "h"); InputKeypress (str "Enter")]))
     = [ (1%nat, str "Co"); (2%nat, str "CO") ]
  /\ pendingFormulas
       (current (run [UserEdits (str "co"); InputKeypress (str "Enter");
                      UserEdits (str "h"); InputKeypress (str "Enter")]))
     = [ str "H" ]
  /\ snd (documentKeypress (digitKey 1)
            (current (run [UserEdits (str "co"); InputKeypress (str "Enter");
                           UserEdits (str "h"); InputKeypress (str "Enter")])))
     = Some (AfterSelection (str "h") (str "H")).
Proof. repeat split. Qed.

(** X13. A key press on the document starts a copy only while the modal
    is shown, and then only of one of the first nine pending candidates,
    recorded with the pending query; it changes nothing else.  Candidates
    beyond the ninth cannot be selected by any key. *)
Theorem selection_reaches_first_nine (key : jsstring) (a : App)
  (k : Continuation) :
  snd (documentKeypress key a) = Some k ->
  modalShown a = true
  /\ fst (documentKeypress key a) = a
  /\ k = AfterSelection (pendingOriginal a) (written k)
  /\ exists i, (i < 9)%nat /\ nth_error (pendingFormulas a) i = Some (written k).
Proof.
  unfold documentKeypress.
  destruct (modalShown a); [|discriminate]. cbn [negb].
  destruct (parseInt key) as [num|]; [|discriminate].
  destruct ((1 <=? num) && (num <=? 9)
            && (num <=? Z.of_nat (length (pendingFormulas a)))) eqn:Hguard;
    [|discriminate].
  cbv zeta. cbn [fst snd]. intros E. injection E as <-. cbn [written].
  repeat split. exists (Z.to_nat (num - 1)). split; [lia|].
  apply nth_error_nth'. lia.
Qed.

Lemma selection_reaches_first_nine_witness :
  length (pendingFormulas
            (fst (textInputKeypress (str "Enter")
                    (withInput (str "cocococo") initialApp)))) = 16%nat
  /\ exists i, (i < 9)%nat
               /\ nth_error
                    (pendingFormulas
                       (fst (textInputKeypress (str "Enter")
                               (withInput (str "cocococo") initialApp))))
                    i
                  = Some (str "CoCoCOCo").
Proof.
  split; [reflexivity|].
  apply (selection_reaches_first_nine (str "3")
           (fst (textInputKeypress (str "Enter")
                   (withInput (str "cocococo") initialApp)))
           (AfterSelection (str "cocococo") (str "CoCoCOCo"))).
  reflexivity.
Defined.

(** X14. Escape cancels: whatever the page, after an Escape key-down the
    modal is hidden, history and feedback are as before, the field is
    empty if the modal was shown, and no key press on the document starts a
    copy of the pending candidates any more. *)
Theorem escape_cancels :
  forall (a : App) (key : jsstring),
    let cancelled := documentKeydown (str "Escape") a in
    modalShown cancelled = false
    /\ page cancelled = page a
    /\ textInput cancelled = (if modalShown a then [] else textInput a)
    /\ documentKeypress key cancelled = (cancelled, None).
Proof.
  intros a key. unfold documentKeydown.
  change (jsstring_eqb (str "Escape") (str "Escape")) with true.
  cbn [andb]. unfold documentKeypress.
  destruct (modalShown a) eqn:Hm; cbn; rewrite ?Hm; now repeat split.
Qed.


(** * Further properties of the helpers *)

(** ** No count left unsubscripted *)

Lemma digitAfterLetter_cons c s :
  digitRun s = [] -> digitAfterLetter (c :: s) = digitAfterLetter s.
Proof.
  intros Hrun. destruct s as [|d s]; [reflexivity|].
  cbn [digitAfterLetter]. simpl in Hrun.
  destruct (isDigit d); [discriminate|]. now rewrite andb_false_r.
Qed.

Lemma digitAfterLetter_literals lits y :
  Forall (fun x => isAlpha x = false /\ isDigit x = false) lits ->
  digitAfterLetter (lits ++ y) = digitAfterLetter y.
Proof.
  induction 1 as [|x lits [Ha _] _ IH]; [reflexivity|].
  cbn [app]. rewrite <- IH.
  destruct (lits ++ y) as [|d r]; [reflexivity|].
  cbn [digitAfterLetter]. now rewrite Ha.
Qed.

Lemma digitAfterLetter_behind r y :
  In y (enumerate (afterDigits r)) ->
  digitAfterLetter (subscriptOf (digitRun r) ++ y) = digitAfterLetter y.
Proof.
  intros _. apply digitAfterLetter_literals, subscripts_literal.
Qed.

Lemma candidate_digits_subscripted :
  forall s cand, In cand (enumerate s) -> digitAfterLetter cand = false.
Proof.
  induction s as [s IH] using string_induction. intros cand Hin.
  destruct (shape_cases s) as [|c rest Ha|c rest Ha Hamb|c c1 rest1 He].
  - destruct Hin as [<-|[]]. reflexivity.
  - rewrite (enumerate_literal _ _ Ha) in Hin.
    apply in_map_iff in Hin. destruct Hin as (y & <- & Hy).
    pose proof (IH rest ltac:(simpl; lia) y Hy) as Hrec.
    destruct y as [|d y]; [reflexivity|].
    cbn [digitAfterLetter] in *. now rewrite Ha.
  - rewrite (enumerate_single _ _ Ha Hamb) in Hin.
    apply in_map_iff in Hin. destruct Hin as (y & <- & Hy).
    rewrite (toUpperCase_letter _ Ha). cbn [app].
    destruct (behind_element rest y Hy) as (Hrun & _ & _).
    rewrite (digitAfterLetter_cons _ _ Hrun), digitAfterLetter_behind by exact Hy.
    apply (IH (afterDigits rest)); [|exact Hy].
    pose proof (afterDigits_length rest). simpl. lia.
  - pose proof He as He'. unfold element in He'.
    apply andb_prop in He'. destruct He' as [He' Hh].
    apply andb_prop in He'. destruct He' as [Ha Ha1].
    rewrite (enumerate_pair _ _ _ He) in Hin.
    rewrite (toUpperCase_letter _ Ha), (toLowerCase_letter _ Ha1) in Hin.
    apply in_app_or in Hin. destruct Hin as [Hin|Hin];
      apply in_map_iff in Hin; destruct Hin as (y & <- & Hy); cbn [app].
    + destruct (behind_element rest1 y Hy) as (Hrun & _ & _).
      destruct (asciiLower_letter _ Ha1) as [Hl _].
      rewrite (digitAfterLetter_cons (asciiUpper c))
        by (simpl; now rewrite (isAlpha_not_digit _ Hl)).
      rewrite (digitAfterLetter_cons _ _ Hrun),
              digitAfterLetter_behind by exact Hy.
      apply (IH (afterDigits rest1)); [|exact Hy].
      pose proof (afterDigits_length rest1). simpl. lia.
    + destruct (digitRun_renders (c1 :: rest1) y (enumerate_renders _ _ Hy))
        as [Hrun _].
      { simpl. now rewrite (isAlpha_not_digit _ Ha1). }
      rewrite (digitAfterLetter_cons _ _ Hrun).
      apply (IH (c1 :: rest1)); [simpl; lia | exact Hy].
Qed.

(** X15. No count is left unsubscripted: in a candidate, an ASCII digit
    never stands right behind a letter.  The digits that do remain are
    those the input has at its start or behind a character that is no
    letter. *)
Theorem no_digit_behind_a_letter (s cand : jsstring) :
  In cand (enumerate s) -> digitAfterLetter cand = false.
Proof. intros Hin. now apply (candidate_digits_subscripted s). Qed.

Lemma no_digit_behind_a_letter_witness :
  In (str "H" ++ [0x2082] ++ str "SO" ++ [0x2084]) (enumerate (str "h2so4"))
  /\ digitAfterLetter (str "H" ++ [0x2082] ++ str "SO" ++ [0x2084]) = false.
Proof.
  assert (Hin : In (str "H" ++ [0x2082] ++ str "SO" ++ [0x2084])
                   (enumerate (str "h2so4"))) by (vm_compute; tauto).
  split; [exact Hin|].
  exact (no_digit_behind_a_letter _ _ Hin).
Defined.

(** ** The digit loop *)

Lemma digitRun_prefix s :
  digitRun s = firstn (length (digitRun s)) s
  /\ forallb isDigit (digitRun s) = true
  /\ match nth_error s (length (digitRun s)) with
     | Some c => isDigit c = false
     | None => True
     end.
Proof.
  induction s as [|c s (IH1 & IH2 & IH3)]; [now repeat split|].
  cbn [digitRun]. destruct (isDigit c) eqn:Hd.
  - cbn [length firstn forallb nth_error]. rewrite <- IH1, Hd, IH2.
    now repeat split.
  - now repeat split.
Qed.

(** X16. The digit loop, started at [digitIndex] with nothing collected,
    stops at the first position from there that holds no digit (or at the
    end of the formula), and has collected exactly the units it passed, all
    of them digits. *)
Theorem digit_loop_collects_the_run :
  forall (formula : jsstring) (digitIndex : nat),
    let stop := fst (collectDigits formula digitIndex []) in
    let num := snd (collectDigits formula digitIndex []) in
    stop = (digitIndex + length num)%nat
    /\ num = firstn (length num) (skipn digitIndex formula)
    /\ forallb isDigit num = true
    /\ match nth_error formula stop with
       | Some c => isDigit c = false
       | None => True
       end.
Proof.
  intros formula digitIndex. cbv zeta.
  rewrite collectDigits_run. cbn [fst snd app].
  destruct (digitRun_prefix (skipn digitIndex formula)) as (H1 & H2 & H3).
  rewrite nth_error_skipn in H3. now repeat split.
Qed.

(** ** Subscripts and uppercase *)

Lemma subscriptUnit_injective c d :
  isDigit c = true -> isDigit d = true ->
  subscriptUnit c = subscriptUnit d -> c = d.
Proof.
  unfold subscriptUnit. intros -> ->. lia.
Qed.

(** X17. [toSubscript] keeps the length of its input, and on strings of
    digits it is injective: two different counts never get the same
    subscript. *)
Theorem toSubscript_injective_on_digits :
  forall a b : jsstring,
    length (toSubscript a) = length a
    /\ (forallb isDigit a = true -> forallb isDigit b = true ->
        toSubscript a = toSubscript b -> a = b).
Proof.
  intros a b. rewrite !toSubscript_map. split; [apply length_map|].
  revert b. induction a as [|c a IH]; intros [|d b] Ha Hb E;
    try discriminate; [reflexivity|].
  simpl in *. apply andb_prop in Ha. apply andb_prop in Hb.
  destruct Ha as [Hc Ha], Hb as [Hd Hb]. injection E as E0 E.
  f_equal; [now apply subscriptUnit_injective | now apply IH].
Qed.

Lemma toSubscript_injective_on_digits_witness :
  forallb isDigit (str "12") = true
  /\ toSubscript (str "12") = toSubscript [49; 50]
  /\ str "12" = [49; 50].
Proof.
  split; [reflexivity|]. split; [reflexivity|].
  apply (toSubscript_injective_on_digits (str "12") [49; 50]); reflexivity.
Defined.

Lemma asciiUpper_ascii s :
  forallb isAscii s = true -> forallb isAscii (map asciiUpper s) = true.
Proof.
  induction s as [|c s IH]; [reflexivity|].
  simpl. intros H. apply andb_prop in H. destruct H as [Hc Hs].
  rewrite (IH Hs), andb_true_r. unfold isAscii in *. letter_cases.
Qed.

(** X18. On ASCII text [transformToUppercase] changes the letters a-z
    into A-Z and nothing else: the length stays, no lowercase letter is
    left, and a second application changes nothing. *)
Theorem transformToUppercase_ascii (text : jsstring) :
  forallb isAscii text = true ->
  transformToUppercase text = map asciiUpper text
  /\ length (transformToUppercase text) = length text
  /\ existsb isLowerAZ (transformToUppercase text) = false
  /\ transformToUppercase (transformToUppercase text)
     = transformToUppercase text.
Proof.
  intros Ha. unfold transformToUppercase.
  rewrite (toUpperCase_ascii _ Ha).
  rewrite (toUpperCase_ascii _ (asciiUpper_ascii _ Ha)).
  repeat split.
  - apply length_map.
  - clear Ha. induction text as [|c text IH]; [reflexivity|].
    simpl. rewrite IH, orb_false_r. letter_cases.
  - rewrite map_map. apply map_ext. intros c. letter_cases.
Qed.

Lemma transformToUppercase_ascii_witness :
  forallb isAscii (str "h3ll0!") = true
  /\ transformToUppercase (str "h3ll0!") = str "H3LL0!".
Proof.
  split; [reflexivity|].
  apply (transformToUppercase_ascii (str "h3ll0!")). reflexivity.
Defined.

(** ** The cases of the test file

    The expectations of [clipboard_util.test.ts] that this version of
    [getAllFormulas] meets, evaluated. *)
Module Tests.

Example valid_two_letter :
  In (str "As") (enumerate (str "as"))
  /\ In (str "As" ++ [0x2082]) (enumerate (str "as2"))
  /\ In (str "As" ++ [0x2081; 0x2082; 0x2083]) (enumerate (str "as123")).
Proof. repeat split; vm_compute; tauto. Qed.

Example compounds :
  In (str "CO" ++ [0x2082]) (enumerate (str "co2"))
  /\ In (str "H" ++ [0x2082] ++ str "SO" ++ [0x2084]) (enumerate (str "h2so4"))
  /\ In (str "NaOH") (enumerate (str "naoh"))
  /\ In (str "CaCO" ++ [0x2083]) (enumerate (str "caco3")).
Proof. repeat split; vm_compute; tauto. Qed.

Example mixed_case :
  In (str "H" ++ [0x2082] ++ str "SO" ++ [0x2084]) (enumerate (str "H2So4"))
  /\ In (str "As") (enumerate (str "AS")).
Proof. repeat split; vm_compute; tauto. Qed.

(** The element-validation group expects single letters to be checked
    against the table; this version does not check them. *)
Example single_letters_unchecked :
  enumerate (str "x") = [ str "X" ]
  /\ enumerate (str "aso3")
     = [ str "AsO" ++ [0x2083]; str "ASO" ++ [0x2083] ].
Proof. split; reflexivity. Qed.

End Tests.
